(** * executor: bounded capture sink and execution lifecycle

    A shallow embedding of the Go package [executor]
    ([executor/executor.go], [executor_unix.go]) and the properties of its
    bounded capture buffer, of its option handling and of the way
    [runCommand] turns the outcome of a child process into a [Result]. *)

From Stdlib Require Import ZArith List Bool String Lia.
From Stdlib Require Import Strings.Byte.
Import ListNotations.

Local Open Scope Z_scope.

(** ** Machine integers

    Go's [int64] (and [int] on the 64-bit targets the package is built
    for) is a two's-complement 64-bit integer; arithmetic wraps. *)

Module Int64.

Definition min_int : Z := - 2 ^ 63.
Definition max_int : Z := 2 ^ 63 - 1.

Definition in_range (z : Z) : Prop := min_int <= z <= max_int.

(** Reduction of a mathematical integer to its [int64] representative. *)
Definition wrap (z : Z) : Z := (z + 2 ^ 63) mod 2 ^ 64 - 2 ^ 63.

Definition add (a b : Z) : Z := wrap (a + b).
Definition sub (a b : Z) : Z := wrap (a - b).

End Int64.

(** ** Errors

    The package has two sentinel errors, compared by identity through
    [errors.Is]; every other error value it handles comes from
    [errors.New], from [fmt.Errorf] with the verbs ["%w: %v"], from
    [os/exec] (an [*exec.ExitError] carrying the process state) or from
    the operating system. *)

(** [syscall.WaitStatus], a [uint32]; the accessors below follow the Go
    standard library ([syscall], Linux and BSD layouts agree on them). *)
Definition WaitStatus := Z.

Module WS.
Definition mask : Z := 0x7F.
Definition core : Z := 0x80.
Definition exited : Z := 0x00.
Definition stopped : Z := 0x7F.
Definition shift : Z := 8.

Definition Exited (w : WaitStatus) : bool := Z.land w mask =? exited.

Definition Signaled (w : WaitStatus) : bool :=
  negb (Z.land w mask =? stopped) && negb (Z.land w mask =? exited).

Definition ExitStatus (w : WaitStatus) : Z :=
  if negb (Exited w) then -1 else Z.land (Z.shiftr w shift) 0xFF.

Definition Signal (w : WaitStatus) : Z :=
  if negb (Signaled w) then -1 else Z.land w mask.

(** The status the kernel reports for a normal exit with code [k]. *)
Definition of_exit (k : Z) : WaitStatus := Z.shiftl (Z.land k 0xFF) shift.

(** The status the kernel reports for a death by signal [sig]. *)
Definition of_signal (sig : Z) : WaitStatus := Z.land sig mask.
End WS.

Definition SIGKILL : Z := 9.

(** [os.ProcessState]: the pid and the wait status of a reaped process. *)
Record ProcessState := mkProcessState {
  ps_pid : Z;
  ps_status : WaitStatus
}.

Inductive Sentinel :=
| ErrContextDone   (* "executor: context timeout or cancelled" *)
| ErrStart.        (* "executor: failed to start" *)

#[warnings="-register-all"]
Inductive error :=
| ESentinel (s : Sentinel)
| ErrorsNew (msg : string)                      (* errors.New(msg) *)
| Errorf_w_v (w : Sentinel) (v : option error)  (* fmt.Errorf("%w: %v", w, v) *)
| ExitError (st : ProcessState)                 (* *exec.ExitError *)
| OsError (msg : string).                       (* any other library error *)

Definition Sentinel_eqb (a b : Sentinel) : bool :=
  match a, b with
  | ErrContextDone, ErrContextDone => true
  | ErrStart, ErrStart => true
  | _, _ => false
  end.

(** [errors.Is(err, target)] for a sentinel target: follow the [Unwrap]
    chain. Only the [%w] operand of [fmt.Errorf] is on that chain; the
    [%v] operand contributes its text alone. *)
Definition errorsIs (err : option error) (target : Sentinel) : bool :=
  match err with
  | Some (ESentinel s) => Sentinel_eqb s target
  | Some (Errorf_w_v w _) => Sentinel_eqb w target
  | _ => false
  end.

(** ** The limited buffer ([executor/executor.go], lines 76-111) *)

Definition len (p : list byte) : Z := Z.of_nat (List.length p).

Record limitedBuffer := mkLimitedBuffer {
  buf : list byte;       (* contents of the bytes.Buffer *)
  limit : Z;             (* int64 *)
  written : Z;           (* int64 *)
  truncated : bool
}.

Definition newLimitedBuffer (limit : Z) : limitedBuffer :=
  {| buf := []; limit := limit; written := 0; truncated := false |}.

(** [bytes.Buffer.Write] appends the whole slice and returns its length. *)
Definition bufWrite (b : list byte) (p : list byte) : list byte * Z :=
  (b ++ p, len p).

(** [p[:n]] for an [int64] index [0 <= n <= len(p)]. *)
Definition slice_to (p : list byte) (n : Z) : list byte :=
  firstn (Z.to_nat n) p.

(** [limitedBuffer.Write]: the new buffer state and the returned
    [(int, error)] pair. *)
Definition Write (b : limitedBuffer) (p : list byte)
  : limitedBuffer * (Z * option error) :=
  if limit b <=? 0 then
    let '(buf', n) := bufWrite (buf b) p in
    ({| buf := buf'; limit := limit b;
        written := Int64.add (written b) n;
        truncated := truncated b |}, (len p, None))
  else
    let remaining := Int64.sub (limit b) (written b) in
    if remaining <=? 0 then
      ({| buf := buf b; limit := limit b; written := written b;
          truncated := true |}, (len p, None))
    else if len p >? remaining then
      let '(buf', n) := bufWrite (buf b) (slice_to p remaining) in
      ({| buf := buf'; limit := limit b;
          written := Int64.add (written b) n;
          truncated := true |}, (len p, None))
    else
      let '(buf', n) := bufWrite (buf b) p in
      ({| buf := buf'; limit := limit b;
          written := Int64.add (written b) n;
          truncated := truncated b |}, (len p, None)).

(** [limitedBuffer.String]; a Go string is a byte sequence. *)
Definition String_ (b : limitedBuffer) : list byte := buf b.

(** A producer writing a sequence of chunks, one [Write] per chunk. *)
Definition writeAll (b : limitedBuffer) (chunks : list (list byte))
  : limitedBuffer :=
  fold_left (fun acc p => fst (Write acc p)) chunks b.

(** [os.ProcessState.ExitCode] on a non-nil state, and [Success]. *)
Definition ExitCode_ (st : ProcessState) : Z := WS.ExitStatus (ps_status st).
Definition Success (st : ProcessState) : bool := ExitCode_ st =? 0.

(** ** Configuration and options ([executor/executor.go], lines 13-56) *)

(** An [io.Writer] handed in by the caller; [io.Discard] is the default. *)
Inductive Writer :=
| Discard
| External (id : nat).

Record Credential := mkCredential {
  UID : Z;   (* uint32 *)
  GID : Z    (* uint32 *)
}.

Record Config := mkConfig {
  cmd : string;
  args : list string;
  env : list string;
  dir : string;
  stdout : Writer;
  stderr : Writer;
  credential : option Credential;
  maxOutput : Z   (* int64 *)
}.

(** [type Option], a function on a pointer to [Config]: the mutation of
    the pointed-to value is written as a function from the old value to
    the new one. *)
Definition Option := Config -> Config.

Definition WithArgs (a : list string) : Option :=
  fun c => {| cmd := cmd c; args := a; env := env c; dir := dir c;
              stdout := stdout c; stderr := stderr c;
              credential := credential c; maxOutput := maxOutput c |}.

Definition WithEnv (e : list string) : Option :=
  fun c => {| cmd := cmd c; args := args c; env := env c ++ e; dir := dir c;
              stdout := stdout c; stderr := stderr c;
              credential := credential c; maxOutput := maxOutput c |}.

Definition WithDir (d : string) : Option :=
  fun c => {| cmd := cmd c; args := args c; env := env c; dir := d;
              stdout := stdout c; stderr := stderr c;
              credential := credential c; maxOutput := maxOutput c |}.

Definition WithStdout (w : Writer) : Option :=
  fun c => {| cmd := cmd c; args := args c; env := env c; dir := dir c;
              stdout := w; stderr := stderr c;
              credential := credential c; maxOutput := maxOutput c |}.

Definition WithStderr (w : Writer) : Option :=
  fun c => {| cmd := cmd c; args := args c; env := env c; dir := dir c;
              stdout := stdout c; stderr := w;
              credential := credential c; maxOutput := maxOutput c |}.

Definition WithCredential (uid gid : Z) : Option :=
  fun c => {| cmd := cmd c; args := args c; env := env c; dir := dir c;
              stdout := stdout c; stderr := stderr c;
              credential := Some {| UID := uid; GID := gid |};
              maxOutput := maxOutput c |}.

Definition WithMaxOutput (n : Z) : Option :=
  fun c => {| cmd := cmd c; args := args c; env := env c; dir := dir c;
              stdout := stdout c; stderr := stderr c;
              credential := credential c; maxOutput := n |}.

(** ** Results ([executor/executor.go], lines 65-74) *)

Record Result := mkResult {
  Stdout : list byte;
  Stderr : list byte;
  ExitCode : Z;             (* int *)
  Err : option error;       (* nil is None *)
  Duration : Z;             (* time.Duration, nanoseconds *)
  StdoutTruncated : bool;
  StderrTruncated : bool
}.

(** A composite literal leaves the fields it does not mention at their
    zero value: the empty string, 0, nil, false. *)

(** ** The environment of one call

    [runCommand] talks to the operating system and to the context. What
    they answer during one call is collected in a [World]; what the call
    asks of them is recorded as a list of [Event]s. *)

Inductive Event :=
| EvOption                                   (* an Option was applied *)
| EvStart (cfg : Config)                     (* execCmd.Start() *)
| EvKill (pid : Z) (sig : Z)                 (* syscall.Kill(pid, sig) *)
| EvWaitDone.                                (* a value received from done *)

(** What the operating system has to say when the process is waited for:
    either a wait status (together with the error, if any, of the
    goroutines that copy the output or of the context watcher), or a
    failure of the wait itself. *)
Inductive OsWait :=
| Reaped (status : WaitStatus) (otherErr : option error)
| WaitFailed (msg : string).

Record World := mkWorld {
  w_start : error + Z;               (* Start fails, or the child's pid *)
  w_ctx_first : bool;                (* select takes the ctx.Done() case *)
  w_wait : OsWait;
  w_stdout : list (list byte);       (* chunks the stdout copy delivers *)
  w_stderr : list (list byte);       (* chunks the stderr copy delivers *)
  w_elapsed : Z                      (* time.Since(start) *)
}.

(** [exec.Cmd.Wait] of the Go standard library: it stores the state in
    [ProcessState], turns an unsuccessful state into an [*exec.ExitError]
    and otherwise reports the other error. It returns the new
    [ProcessState] field and the error. *)
Definition cmdWait (pid : Z) (o : OsWait)
  : option ProcessState * option error :=
  match o with
  | WaitFailed msg => (None, Some (OsError msg))
  | Reaped status otherErr =>
      let state := {| ps_pid := pid; ps_status := status |} in
      let err := if negb (Success state) then Some (ExitError state)
                 else None in
      (Some state, match err with Some _ => err | None => otherErr end)
  end.

(** ** runCommand ([executor_unix.go], lines 22-87)

    Lines 23-34 prepare the [exec.Cmd] from the configuration (program,
    arguments, directory, environment, own process group, credential);
    the [EvStart] event carries that configuration. The writers of the
    caller receive every chunk next to the capture buffers and do not
    enter the [Result]. *)

(** The two capture buffers once the output has been pumped through the
    multi-writers. [w_stdout] and [w_stderr] are the chunks the copying
    goroutines hand to [io.MultiWriter(buffer, cfg.stdout)]: all of the
    child's output as long as the caller's writer takes every chunk; the
    copy of a stream stops at the first chunk that writer fails on or
    writes short. The buffer is the first writer of the pair and never
    fails, so it receives every chunk handed over, that last one too. *)
Definition captureBuffers (w : World) (cfg : Config)
  : limitedBuffer * limitedBuffer :=
  let stdoutBuf := newLimitedBuffer (maxOutput cfg) in
  let stderrBuf := newLimitedBuffer (maxOutput cfg) in
  (writeAll stdoutBuf (w_stdout w), writeAll stderrBuf (w_stderr w)).

(** Lines 63-76: the exit code from the [ProcessState] field and the
    final [waitErr]. *)
Definition resolveExitCode (processState : option ProcessState)
    (waitErr : option error) : Z :=
  match processState with
  | Some st => ExitCode_ st
  | None =>
      match waitErr with
      | Some (ExitError st) =>
          let ws := ps_status st in
          if WS.Exited ws then WS.ExitStatus ws
          else if WS.Signaled ws then 128 + WS.Signal ws
          else -1
      | _ => -1
      end
  end.

Definition runCommand (w : World) (cfg : Config) : Result * list Event :=
  match w_start w with
  | inl err =>
      ({| Stdout := []; Stderr := []; ExitCode := -1;
          Err := Some (Errorf_w_v ErrStart (Some err)); Duration := 0;
          StdoutTruncated := false; StderrTruncated := false |},
       [EvStart cfg])
  | inr pid =>
      let '(stdoutBuf, stderrBuf) := captureBuffers w cfg in
      let '(processState, err) := cmdWait pid (w_wait w) in
      let process := Some pid in   (* execCmd.Process, set by Start *)
      let '(waitErr, evs) :=
        if w_ctx_first w then
          (Some (Errorf_w_v ErrContextDone err),
           match process with
           | Some p => [EvKill (- p) SIGKILL]
           | None => []
           end ++ [EvWaitDone])
        else (err, [EvWaitDone]) in
      let duration := w_elapsed w in
      let exitCode := resolveExitCode processState waitErr in
      ({| Stdout := String_ stdoutBuf; Stderr := String_ stderrBuf;
          ExitCode := exitCode; Err := waitErr; Duration := duration;
          StdoutTruncated := truncated stdoutBuf;
          StderrTruncated := truncated stderrBuf |},
       EvStart cfg :: evs)
  end.

(** ** Run ([executor/executor.go], lines 115-132) *)

Definition defaultConfig (c : string) : Config :=
  {| cmd := c; args := []; env := []; dir := EmptyString;
     stdout := Discard; stderr := Discard; credential := None;
     maxOutput := 1024 * 10 |}.

Definition applyOptions (opts : list Option) (cfg : Config) : Config :=
  fold_left (fun c opt => opt c) opts cfg.

Definition Run (w : World) (c : string) (opts : list Option)
  : Result * list Event :=
  if String.eqb c EmptyString then
    ({| Stdout := []; Stderr := []; ExitCode := -1;
        Err := Some (ErrorsNew "executor: command cannot be empty");
        Duration := 0;
        StdoutTruncated := false; StderrTruncated := false |}, [])
  else
    let cfg := applyOptions opts (defaultConfig c) in
    let '(r, evs) := runCommand w cfg in
    (r, map (fun _ => EvOption) opts ++ evs).

(** ** Vocabulary for the statements *)

(** The options a caller outside the package can build: the fields of
    [Config] are unexported, so the seven helpers are the only ones. *)
Inductive Mutation :=
| SetArgs (a : list string)
| AddEnv (e : list string)
| SetDir (d : string)
| SetStdout (w : Writer)
| SetStderr (w : Writer)
| SetCredential (uid gid : Z)
| SetMaxOutput (n : Z).

Definition toOption (m : Mutation) : Option :=
  match m with
  | SetArgs a => WithArgs a
  | AddEnv e => WithEnv e
  | SetDir d => WithDir d
  | SetStdout w => WithStdout w
  | SetStderr w => WithStderr w
  | SetCredential uid gid => WithCredential uid gid
  | SetMaxOutput n => WithMaxOutput n
  end.

(** The capture limit a list of mutations asks for: the argument of the
    last [SetMaxOutput], or [cur] when there is none. *)
Fixpoint requestedLimit (ms : list Mutation) (cur : Z) : Z :=
  match ms with
  | [] => cur
  | SetMaxOutput n :: ms' => requestedLimit ms' n
  | _ :: ms' => requestedLimit ms' cur
  end.




(** The field of [Config] a mutation writes. *)
Inductive Field :=
| FArgs | FEnv | FDir | FStdout | FStderr | FCredential | FMaxOutput.

Definition fieldOf (m : Mutation) : Field :=
  match m with
  | SetArgs _ => FArgs
  | AddEnv _ => FEnv
  | SetDir _ => FDir
  | SetStdout _ => FStdout
  | SetStderr _ => FStderr
  | SetCredential _ _ => FCredential
  | SetMaxOutput _ => FMaxOutput
  end.

(** ** The Windows variant ([executor_unix.go], lines 88-154, the text
    of the file built under the [windows] tag)

    On Windows [syscall.WaitStatus] is a struct holding the [uint32]
    exit code, every status counts as exited, [ExitStatus] converts the
    exit code to [int], and the context branch calls [Process.Kill] on
    the child alone. The width of [int] depends on the build: 32 bits on
    the 32-bit targets, 64 bits on the others; it is the parameter
    [intSize]. *)

Module Windows.

(** [int(x)] for a [uint32] value [x]: its two's-complement reading in
    [intSize] bits. *)
Definition int_of_uint32 (intSize : Z) (x : Z) : Z :=
  (x + 2 ^ (intSize - 1)) mod 2 ^ intSize - 2 ^ (intSize - 1).

Definition ExitStatus (intSize : Z) (w : WaitStatus) : Z :=
  int_of_uint32 intSize w.   (* int(w.ExitCode) *)

Definition ExitCode_ (intSize : Z) (st : ProcessState) : Z :=
  ExitStatus intSize (ps_status st).
Definition Success (intSize : Z) (st : ProcessState) : bool :=
  ExitCode_ intSize st =? 0.

Definition cmdWait (intSize : Z) (pid : Z) (o : OsWait)
  : option ProcessState * option error :=
  match o with
  | WaitFailed msg => (None, Some (OsError msg))
  | Reaped status otherErr =>
      let state := {| ps_pid := pid; ps_status := status |} in
      let err := if negb (Success intSize state) then Some (ExitError state)
                 else None in
      (Some state, match err with Some _ => err | None => otherErr end)
  end.

Inductive Event :=
| EvStart (cfg : Config)        (* execCmd.Start() *)
| EvProcessKill (pid : Z)       (* execCmd.Process.Kill() *)
| EvWaitDone.                   (* a value received from done *)

Definition runCommand (intSize : Z) (w : World) (cfg : Config)
  : Result * list Event :=
  match w_start w with
  | inl err =>
      ({| Stdout := []; Stderr := []; ExitCode := -1;
          Err := Some (Errorf_w_v ErrStart (Some err)); Duration := 0;
          StdoutTruncated := false; StderrTruncated := false |},
       [EvStart cfg])
  | inr pid =>
      let '(stdoutBuf, stderrBuf) := captureBuffers w cfg in
      let '(processState, err) := cmdWait intSize pid (w_wait w) in
      let process := Some pid in   (* execCmd.Process, set by Start *)
      let '(waitErr, evs) :=
        if w_ctx_first w then
          (Some (Errorf_w_v ErrContextDone err),
           match process with
           | Some p => [EvProcessKill p]
           | None => []
           end ++ [EvWaitDone])
        else (err, [EvWaitDone]) in
      let duration := w_elapsed w in
      let exitCode := match processState with
                      | Some st => ExitCode_ intSize st
                      | None => -1
                      end in
      ({| Stdout := String_ stdoutBuf; Stderr := String_ stderrBuf;
          ExitCode := exitCode; Err := waitErr; Duration := duration;
          StdoutTruncated := truncated stdoutBuf;
          StderrTruncated := truncated stderrBuf |},
       EvStart cfg :: evs)
  end.

End Windows.

(** Sample environments for the concrete cases below: the process gets
    pid 4242, writes nothing and is waited for with outcome [o]. *)
Definition sh : string := "sh".

Definition sampleWorld (cancelled : bool) (o : OsWait) : World :=
  {| w_start := inr 4242; w_ctx_first := cancelled; w_wait := o;
     w_stdout := []; w_stderr := []; w_elapsed := 100 |}.

(** What holds of a buffer with a positive limit between two writes:
    the counter is the stored length and has not passed the limit. *)
Definition bounded_inv (b : limitedBuffer) : Prop :=
  0 < limit b /\ Int64.in_range (limit b) /\
  written b = len (buf b) /\ written b <= limit b.

Ltac int64_bounds :=
  unfold Int64.in_range, Int64.min_int, Int64.max_int in *; lia.

(** * Properties *)

(** ** Machine arithmetic *)

Lemma wrap_small (z : Z) : Int64.in_range z -> Int64.wrap z = z.
Proof.
  unfold Int64.in_range, Int64.min_int, Int64.max_int, Int64.wrap; intros Hz.
  rewrite Z.mod_small; lia.
Qed.

Lemma wrap_in_range (z : Z) : Int64.in_range (Int64.wrap z).
Proof.
  unfold Int64.in_range, Int64.min_int, Int64.max_int, Int64.wrap.
  pose proof (Z.mod_pos_bound (z + 2 ^ 63) (2 ^ 64) ltac:(lia)).
  lia.
Qed.

Lemma len_nonneg (p : list byte) : 0 <= len p.
Proof. unfold len; lia. Qed.

Lemma len_app (p q : list byte) : len (p ++ q) = len p + len q.
Proof. unfold len; rewrite length_app; lia. Qed.

Lemma len_nil_iff (p : list byte) : len p = 0 <-> p = [].
Proof.
  unfold len; destruct p; simpl; split; intros H;
    try reflexivity; try discriminate; lia.
Qed.

Lemma len_slice_to (p : list byte) (n : Z) :
  0 <= n <= len p -> len (slice_to p n) = n.
Proof.
  unfold len, slice_to; intros Hn.
  rewrite length_firstn, Nat.min_l by lia. lia.
Qed.

(** ** The limited buffer *)

Section Sink.

Lemma new_bounded_inv (n : Z) :
  0 < n -> Int64.in_range n -> bounded_inv (newLimitedBuffer n).
Proof.
  intros Hpos Hr; unfold bounded_inv, newLimitedBuffer; cbn.
  repeat split; try assumption; try apply Hr; lia.
Qed.

Lemma Write_returns (b : limitedBuffer) (p : list byte) :
  snd (Write b p) = (len p, None).
Proof.
  unfold Write, bufWrite.
  destruct (limit b <=? 0); [reflexivity|].
  destruct (Int64.sub (limit b) (written b) <=? 0); [reflexivity|].
  destruct (len p >? Int64.sub (limit b) (written b)); reflexivity.
Qed.

Lemma Write_limit (b : limitedBuffer) (p : list byte) :
  limit (fst (Write b p)) = limit b.
Proof.
  unfold Write, bufWrite.
  destruct (limit b <=? 0); [reflexivity|].
  destruct (Int64.sub (limit b) (written b) <=? 0); [reflexivity|].
  destruct (len p >? Int64.sub (limit b) (written b)); reflexivity.
Qed.

Lemma Write_truncated_mono (b : limitedBuffer) (p : list byte) :
  truncated b = true -> truncated (fst (Write b p)) = true.
Proof.
  unfold Write, bufWrite; intros Ht.
  destruct (limit b <=? 0); [exact Ht|].
  destruct (Int64.sub (limit b) (written b) <=? 0); [reflexivity|].
  destruct (len p >? Int64.sub (limit b) (written b));
    [reflexivity | exact Ht].
Qed.

Lemma writeAll_limit (chunks : list (list byte)) (b : limitedBuffer) :
  limit (writeAll b chunks) = limit b.
Proof.
  revert b; induction chunks as [|p chunks IH]; intros b; cbn;
    [reflexivity|].
  unfold writeAll in IH; rewrite IH. apply Write_limit.
Qed.

Lemma writeAll_truncated_mono (chunks : list (list byte))
    (b : limitedBuffer) :
  truncated b = true -> truncated (writeAll b chunks) = true.
Proof.
  revert b; induction chunks as [|p chunks IH]; intros b Ht; cbn;
    [exact Ht|].
  apply IH, Write_truncated_mono, Ht.
Qed.

Lemma writeAll_app (xs ys : list (list byte)) (b : limitedBuffer) :
  writeAll b (xs ++ ys) = writeAll (writeAll b xs) ys.
Proof. unfold writeAll; apply fold_left_app. Qed.

(** The room a bounded buffer computes is the mathematical difference. *)
Lemma remaining_exact (b : limitedBuffer) :
  bounded_inv b -> Int64.sub (limit b) (written b) = limit b - written b.
Proof.
  intros (Hpos & Hr & Hw & Hle).
  unfold Int64.sub; apply wrap_small.
  pose proof (len_nonneg (buf b)).
  unfold Int64.in_range, Int64.min_int, Int64.max_int in *. lia.
Qed.

(** One write to a bounded buffer, case by case. *)
Lemma Write_bounded (b : limitedBuffer) (p : list byte) :
  bounded_inv b ->
  let b' := fst (Write b p) in
  bounded_inv b' /\
  buf b' = firstn (Z.to_nat (limit b)) (buf b ++ p) /\
  truncated b' =
    (truncated b || (limit b <=? written b)
     || (limit b <? written b + len p))%bool.
Proof.
  intros Hinv.
  pose proof (remaining_exact b Hinv) as Hrem.
  destruct Hinv as (Hpos & Hr & Hw & Hle).
  pose proof (len_nonneg (buf b)) as Hb0.
  pose proof (len_nonneg p) as Hp0.
  unfold Write, bufWrite; rewrite Hrem.
  destruct (limit b <=? 0) eqn:E0; [apply Z.leb_le in E0; lia|].
  destruct (limit b - written b <=? 0) eqn:E1.
  - apply Z.leb_le in E1. cbn.
    assert (Hfull : len (buf b) = limit b) by lia.
    refine (conj (conj Hpos (conj Hr (conj _ _))) (conj _ _)); cbn;
      try assumption.
    + rewrite firstn_app.
      replace (Z.to_nat (limit b)) with (List.length (buf b))
        by (unfold len in Hfull; lia).
      rewrite firstn_all, Nat.sub_diag, firstn_O, app_nil_r. reflexivity.
    + replace (limit b <=? written b) with true
        by (symmetry; apply Z.leb_le; lia).
      rewrite orb_true_r. reflexivity.
  - apply Z.leb_gt in E1.
    destruct (len p >? limit b - written b) eqn:E2.
    + rewrite Z.gtb_ltb in E2; apply Z.ltb_lt in E2. cbn.
      assert (Hs : len (slice_to p (limit b - written b))
                   = limit b - written b)
        by (apply len_slice_to; lia).
      unfold Int64.add; rewrite Hs, wrap_small
        by (unfold Int64.in_range, Int64.min_int, Int64.max_int in *; lia).
      refine (conj (conj Hpos (conj Hr (conj _ _))) (conj _ _)); cbn;
        try lia.
      * rewrite len_app, Hs; lia.
      * rewrite firstn_app. unfold slice_to.
        rewrite (firstn_all2 (buf b)) by (unfold len in *; lia).
        f_equal. f_equal. unfold len in *; lia.
    + rewrite Z.gtb_ltb in E2; apply Z.ltb_ge in E2. cbn.
      unfold Int64.add; rewrite wrap_small
        by (unfold Int64.in_range, Int64.min_int, Int64.max_int in *; lia).
      refine (conj (conj Hpos (conj Hr (conj _ _))) (conj _ _)); cbn;
        try lia.
      * rewrite len_app; lia.
      * rewrite firstn_all2; [reflexivity|].
        rewrite length_app. unfold len in *; lia.
      * replace (limit b <=? written b) with false
          by (symmetry; apply Z.leb_gt; lia).
        replace (limit b <? written b + len p) with false
          by (symmetry; apply Z.ltb_ge; lia).
        rewrite !orb_false_r. reflexivity.
Qed.

Lemma firstn_firstn_app (n : nat) (x y : list byte) :
  firstn n (firstn n x ++ y) = firstn n (x ++ y).
Proof.
  destruct (Nat.le_gt_cases (List.length x) n) as [Hle|Hgt].
  - rewrite (firstn_all2 x) by exact Hle. reflexivity.
  - rewrite !firstn_app, firstn_firstn, Nat.min_id.
    rewrite length_firstn, Nat.min_l by lia.
    replace (n - n)%nat with 0%nat by lia.
    replace (n - List.length x)%nat with 0%nat by lia.
    reflexivity.
Qed.

(** A run of writes to a bounded buffer keeps the first [limit] bytes
    of everything offered to it. *)
Lemma writeAll_bounded (chunks : list (list byte)) (b : limitedBuffer) :
  bounded_inv b ->
  bounded_inv (writeAll b chunks) /\
  buf (writeAll b chunks)
  = firstn (Z.to_nat (limit b)) (buf b ++ List.concat chunks).
Proof.
  revert b; induction chunks as [|p chunks IH]; intros b Hinv; cbn.
  - split; [exact Hinv|].
    rewrite app_nil_r, firstn_all2; [reflexivity|].
    destruct Hinv as (_ & _ & Hw & Hle). unfold len in *; lia.
  - destruct (Write_bounded b p Hinv) as (Hinv' & Hbuf & _).
    destruct (IH _ Hinv') as (Hfin & Hbuf').
    split; [exact Hfin|].
    unfold writeAll in Hbuf'; rewrite Hbuf', Write_limit, Hbuf.
    rewrite firstn_firstn_app, app_assoc. reflexivity.
Qed.

(** When no chunk is empty, the flag of a bounded buffer tells whether
    more was offered than fits. *)
Lemma writeAll_truncated_nonempty (chunks : list (list byte))
    (b : limitedBuffer) :
  bounded_inv b ->
  Forall (fun p => p <> []) chunks ->
  truncated (writeAll b chunks)
  = (truncated b || (limit b <? written b + len (List.concat chunks)))%bool.
Proof.
  revert b; induction chunks as [|p chunks IH]; intros b Hinv Hne; cbn.
  - destruct Hinv as (_ & _ & _ & Hle).
    destruct (truncated b); cbn; [reflexivity|].
    symmetry; apply Z.ltb_ge. unfold len; cbn. lia.
  - inversion Hne as [|? ? Hp Hrest]; subst.
    destruct (Write_bounded b p Hinv) as (Hinv' & Hbuf & Htr).
    unfold writeAll in IH; rewrite (IH _ Hinv' Hrest), Htr, Write_limit.
    assert (Hw' : written (fst (Write b p))
                  = Z.min (limit b) (written b + len p)).
    { destruct Hinv' as (_ & _ & Hw' & _). rewrite Hw', Hbuf.
      destruct Hinv as (Hpos & _ & Hw & _).
      unfold len. rewrite length_firstn, length_app.
      unfold len in Hw. lia. }
    rewrite Hw', len_app.
    assert (0 < len p).
    { pose proof (len_nonneg p). pose proof (proj1 (len_nil_iff p)).
      destruct (Z.eq_dec (len p) 0); [tauto | lia]. }
    pose proof (len_nonneg (List.concat chunks)).
    destruct Hinv as (Hpos & _ & _ & Hle).
    destruct (truncated b); cbn; [reflexivity|].
    destruct (Z.le_gt_cases (written b + len p) (limit b)).
    + rewrite Z.min_r by lia.
      replace (limit b <=? written b) with false
        by (symmetry; apply Z.leb_gt; lia).
      replace (limit b <? written b + len p) with false
        by (symmetry; apply Z.ltb_ge; lia).
      cbn. f_equal. lia.
    + replace (limit b <? written b + len p) with true
        by (symmetry; apply Z.ltb_lt; lia).
      rewrite orb_true_r; cbn.
      symmetry; apply Z.ltb_lt; lia.
Qed.

(** A buffer without a positive limit keeps everything and never sets
    the flag. *)
Lemma writeAll_unbounded (chunks : list (list byte)) (b : limitedBuffer) :
  limit b <= 0 ->
  buf (writeAll b chunks) = buf b ++ List.concat chunks /\
  truncated (writeAll b chunks) = truncated b.
Proof.
  revert b; induction chunks as [|p chunks IH]; intros b Hl; cbn.
  - rewrite app_nil_r; split; reflexivity.
  - assert (Hstep : buf (fst (Write b p)) = buf b ++ p /\
                    truncated (fst (Write b p)) = truncated b /\
                    limit (fst (Write b p)) <= 0).
    { unfold Write, bufWrite.
      replace (limit b <=? 0) with true by (symmetry; apply Z.leb_le; lia).
      cbn; repeat split; lia. }
    destruct Hstep as (Hb & Ht & Hl').
    destruct (IH _ Hl') as (Hb' & Ht').
    unfold writeAll in Hb', Ht'; rewrite Hb', Ht', Hb, Ht, app_assoc.
    split; reflexivity.
Qed.

(** A bounded buffer whose counter has reached the limit only raises
    the flag. *)
Lemma Write_full (b : limitedBuffer) (p : list byte) :
  0 < limit b -> Int64.in_range (limit b) -> Int64.in_range (written b) ->
  limit b <= written b ->
  Write b p
  = ({| buf := buf b; limit := limit b; written := written b;
        truncated := true |}, (len p, None)).
Proof.
  intros Hpos Hl Hw Hge. unfold Write.
  replace (limit b <=? 0) with false by (symmetry; apply Z.leb_gt; lia).
  unfold Int64.sub; rewrite wrap_small
    by (unfold Int64.in_range, Int64.min_int, Int64.max_int in *; lia).
  replace (limit b - written b <=? 0) with true
    by (symmetry; apply Z.leb_le; lia).
  reflexivity.
Qed.

Lemma writeAll_full (chunks : list (list byte)) (b : limitedBuffer) :
  0 < limit b -> Int64.in_range (limit b) -> Int64.in_range (written b) ->
  limit b <= written b ->
  buf (writeAll b chunks) = buf b /\
  written (writeAll b chunks) = written b.
Proof.
  revert b; induction chunks as [|p chunks IH]; intros b Hpos Hl Hw Hge;
    cbn; [split; reflexivity|].
  rewrite (Write_full b p Hpos Hl Hw Hge); cbn.
  apply (IH {| buf := buf b; limit := limit b; written := written b;
               truncated := true |}); assumption.
Qed.

End Sink.

(** The scenario of the package's truncation test: a limit of 10 bytes
    and a line of 26 letters and a newline, whether it arrives whole or
    letter by letter. *)
Example output_truncation_test :
  let line := [x61; x62; x63; x64; x65; x66; x67; x68; x69; x6a; x6b; x6c;
               x6d; x6e; x6f; x70; x71; x72; x73; x74; x75; x76; x77; x78;
               x79; x7a; x0a] in
  let whole := writeAll (newLimitedBuffer 10) [line] in
  let split := writeAll (newLimitedBuffer 10) (map (fun c => [c]) line) in
  truncated whole = true /\ len (buf whole) = 10 /\
  truncated split = true /\ buf split = buf whole.
Proof. vm_compute. repeat split. Qed.

(** C4 (as stated) fails: a buffer of capacity 2 offered a chunk of 3
    bytes stores the 2-byte prefix and raises the flag, but its counter
    advances by the 2 bytes stored, not by the 3 bytes offered. *)
Lemma Write_overflow_counter_counterexample :
  let b := newLimitedBuffer 2 in
  let p := [x61; x62; x63] in
  0 < limit b /\ limit b - written b < len p /\
  buf (fst (Write b p)) = [x61; x62] /\
  truncated (fst (Write b p)) = true /\
  written (fst (Write b p)) = 2 /\
  written (fst (Write b p)) <> written b + len p.
Proof. vm_compute. repeat split; discriminate. Qed.

(** C4 (amended): when a chunk exceeds the room left in a buffer with a
    positive limit, [Write] stores the prefix that fits, raises the
    truncated flag, reports the whole chunk as consumed and advances the
    counter by the length of the stored prefix, which brings it to the
    limit; the room computed by every later write is not positive. *)
Theorem Write_overflow_stores_prefix (b : limitedBuffer) (p : list byte) :
  0 < limit b -> Int64.in_range (limit b) ->
  0 <= written b < limit b ->
  limit b - written b < len p ->
  let b' := fst (Write b p) in
  let stored := slice_to p (limit b - written b) in
  buf b' = buf b ++ stored /\
  truncated b' = true /\
  snd (Write b p) = (len p, None) /\
  written b' = written b + len stored /\
  written b' = limit b /\
  forall later : list (list byte),
    Int64.sub (limit (writeAll b' later)) (written (writeAll b' later)) <= 0.
Proof.
  intros Hpos Hl Hw Hbig b' stored.
  assert (Hs : len stored = limit b - written b)
    by (apply len_slice_to; lia).
  assert (Hb' : b' = {| buf := buf b ++ stored; limit := limit b;
                        written := limit b; truncated := true |}).
  { subst b'. unfold Write, bufWrite.
    replace (limit b <=? 0) with false by (symmetry; apply Z.leb_gt; lia).
    unfold Int64.sub; rewrite wrap_small by int64_bounds.
    replace (limit b - written b <=? 0) with false
      by (symmetry; apply Z.leb_gt; lia).
    replace (len p >? limit b - written b) with true
      by (symmetry; rewrite Z.gtb_ltb; apply Z.ltb_lt; lia).
    fold stored. cbn. unfold Int64.add.
    rewrite Hs, wrap_small by int64_bounds.
    f_equal. lia. }
  rewrite Hb'; cbn.
  repeat split; try reflexivity; try lia.
  - apply Write_returns.
  - intros later.
    destruct (writeAll_full later
                {| buf := buf b ++ stored; limit := limit b;
                   written := limit b; truncated := true |})
      as (_ & Hwr); cbn; try assumption; try lia.
    rewrite writeAll_limit, Hwr; cbn.
    unfold Int64.sub; rewrite Z.sub_diag. vm_compute. discriminate.
Qed.

Lemma Write_overflow_stores_prefix_witness :
  let b := newLimitedBuffer 2 in
  let p := [x61; x62; x63] in
  (0 < limit b /\ Int64.in_range (limit b) /\ 0 <= written b < limit b /\
   limit b - written b < len p) /\
  written (fst (Write b p)) = limit b.
Proof.
  assert (H1 : 0 < limit (newLimitedBuffer 2)) by (cbn; lia).
  assert (H2 : Int64.in_range (limit (newLimitedBuffer 2)))
    by (cbn; int64_bounds).
  assert (H3 : 0 <= written (newLimitedBuffer 2) < limit (newLimitedBuffer 2))
    by (cbn; lia).
  assert (H4 : limit (newLimitedBuffer 2) - written (newLimitedBuffer 2)
               < len [x61; x62; x63]) by (cbn; lia).
  split; [repeat split; try apply H2; try apply H3; assumption|].
  exact (proj1 (proj2 (proj2 (proj2 (proj2
    (Write_overflow_stores_prefix (newLimitedBuffer 2) [x61; x62; x63]
       H1 H2 H3 H4)))))).
Defined.

(** C5: starting from a fresh buffer, after any sequence of writes the
    stored length is at most the limit whenever the limit is positive,
    and once the truncated flag is set no further sequence of writes
    clears it. *)
Theorem sink_capacity_and_monotone_truncation
    (n : Z) (chunks later : list (list byte)) :
  Int64.in_range n ->
  let b := writeAll (newLimitedBuffer n) chunks in
  (0 < n -> len (buf b) <= n) /\
  (truncated b = true -> truncated (writeAll b later) = true) /\
  (forall b0 : limitedBuffer,
     truncated b0 = true -> truncated (writeAll b0 later) = true).
Proof.
  intros Hn b; split; [|split; [|intros b0]].
  - intros Hpos.
    destruct (writeAll_bounded chunks (newLimitedBuffer n)
                (new_bounded_inv n Hpos Hn)) as ((_ & _ & Hw & Hle) & _).
    fold b in Hw, Hle. subst b.
    rewrite writeAll_limit in Hle. cbn in Hle. lia.
  - apply writeAll_truncated_mono.
  - apply writeAll_truncated_mono.
Qed.

Lemma sink_capacity_and_monotone_truncation_witness :
  Int64.in_range 2 /\
  (0 < 2 ->
   len (buf (writeAll (newLimitedBuffer 2) [[x61]; [x62; x63]; [x64]])) <= 2).
Proof.
  assert (H : Int64.in_range 2) by int64_bounds.
  split; [exact H|].
  exact (proj1 (sink_capacity_and_monotone_truncation
                  2 [[x61]; [x62; x63]; [x64]] [] H)).
Defined.

(** Stored bytes do not depend on the chunking, empty chunks or not;
    the flags agree when no chunk is empty. *)
Lemma chunking_capture (n : Z) (B : list byte) (chunks : list (list byte)) :
  Int64.in_range n ->
  List.concat chunks = B ->
  let one := fst (Write (newLimitedBuffer n) B) in
  let many := writeAll (newLimitedBuffer n) chunks in
  buf many = buf one /\
  (Forall (fun p => p <> []) chunks -> truncated many = truncated one).
Proof.
  intros Hn HB one many.
  assert (Hone : one = writeAll (newLimitedBuffer n) [B]) by reflexivity.
  destruct (Z.le_gt_cases n 0) as [Hle|Hpos].
  - destruct (writeAll_unbounded chunks (newLimitedBuffer n) Hle)
      as (Hb & Ht).
    destruct (writeAll_unbounded [B] (newLimitedBuffer n) Hle)
      as (Hb1 & Ht1).
    fold many in Hb, Ht. rewrite <- Hone in Hb1, Ht1.
    cbn in Hb, Hb1, Ht, Ht1. rewrite app_nil_r in Hb1.
    split; intros; congruence.
  - pose proof (new_bounded_inv n ltac:(lia) Hn) as Hinv.
    destruct (writeAll_bounded chunks _ Hinv) as (_ & Hb).
    destruct (writeAll_bounded [B] _ Hinv) as (_ & Hb1).
    fold many in Hb. rewrite <- Hone in Hb1.
    cbn in Hb, Hb1. rewrite app_nil_r in Hb1.
    split; [congruence|].
    intros Hne.
    pose proof (writeAll_truncated_nonempty chunks _ Hinv Hne) as Ht.
    fold many in Ht. cbn in Ht. rewrite HB in Ht.
    destruct (Write_bounded (newLimitedBuffer n) B Hinv) as (_ & _ & Ht1).
    fold one in Ht1. cbn in Ht1.
    replace (n <=? 0) with false in Ht1 by (symmetry; apply Z.leb_gt; lia).
    cbn in Ht1. congruence.
Qed.

(** C6: for every content [B] and every capacity [n], writing [B] to a
    fresh buffer as one chunk and writing it as any partition into
    chunks (a list of non-empty chunks whose concatenation is [B]) end
    in the same truncated flag and the same captured length; the stored
    bytes are the same too. *)
Theorem chunking_same_final_state
    (n : Z) (B : list byte) (chunks : list (list byte)) :
  Int64.in_range n ->
  List.concat chunks = B ->
  Forall (fun p => p <> []) chunks ->
  let one := fst (Write (newLimitedBuffer n) B) in
  let many := writeAll (newLimitedBuffer n) chunks in
  truncated many = truncated one /\
  len (buf many) = len (buf one) /\
  buf many = buf one.
Proof.
  intros Hn HB Hne one many.
  destruct (chunking_capture n B chunks Hn HB) as (Hbuf & Hflag).
  fold one many in Hbuf, Hflag.
  split; [exact (Hflag Hne)|].
  split; [rewrite Hbuf; reflexivity | exact Hbuf].
Qed.

Lemma chunking_same_final_state_witness :
  (Int64.in_range 2 /\
   List.concat [[x61]; [x62; x63]] = [x61; x62; x63] /\
   Forall (fun p : list byte => p <> []) [[x61]; [x62; x63]]) /\
  truncated (writeAll (newLimitedBuffer 2) [[x61]; [x62; x63]])
  = truncated (fst (Write (newLimitedBuffer 2) [x61; x62; x63])).
Proof.
  assert (H : Int64.in_range 2) by int64_bounds.
  assert (Hne : Forall (fun p : list byte => p <> []) [[x61]; [x62; x63]])
    by (repeat constructor; discriminate).
  split; [split; [exact H | split; [reflexivity | exact Hne]]|].
  exact (proj1 (chunking_same_final_state 2 [x61; x62; x63]
                  [[x61]; [x62; x63]] H eq_refl Hne)).
Defined.

(** Why the chunks of a partition are taken non-empty: an empty slice
    written to a buffer that is exactly full raises the flag although
    nothing is dropped. The copy of a stream never does that, it writes
    only what a read returned. *)
Example empty_write_at_capacity_raises_flag :
  truncated (fst (Write (newLimitedBuffer 1) [x61])) = false /\
  truncated (writeAll (newLimitedBuffer 1) [[x61]; []]) = true.
Proof. vm_compute. split; reflexivity. Qed.

(** C9: once the counter of a buffer with a positive limit has reached
    the limit, every write, of any length and of length zero too, sets
    the truncated flag and leaves the counter, the stored bytes and the
    limit as they were; so the flag can be raised by a write that drops
    nothing, as the empty write to a buffer of capacity 1 holding one
    byte shows. *)
Theorem Write_at_capacity (b : limitedBuffer) (p : list byte) :
  0 < limit b -> Int64.in_range (limit b) -> Int64.in_range (written b) ->
  limit b <= written b ->
  let b' := fst (Write b p) in
  (truncated b' = true /\ written b' = written b /\ buf b' = buf b /\
   limit b' = limit b /\ snd (Write b p) = (len p, None)) /\
  (let full := writeAll (newLimitedBuffer 1) [[x61]] in
   truncated full = false /\ len [] = 0 /\
   truncated (fst (Write full [])) = true /\
   buf (fst (Write full [])) = buf full).
Proof.
  intros Hpos Hl Hw Hge b'. split.
  - subst b'. rewrite (Write_full b p Hpos Hl Hw Hge); cbn.
    repeat split; reflexivity.
  - vm_compute. repeat split; reflexivity.
Qed.

Lemma Write_at_capacity_witness :
  let b := writeAll (newLimitedBuffer 1) [[x61]] in
  (0 < limit b /\ Int64.in_range (limit b) /\ Int64.in_range (written b) /\
   limit b <= written b) /\
  truncated (fst (Write b [])) = true.
Proof.
  assert (H1 : 0 < limit (writeAll (newLimitedBuffer 1) [[x61]]))
    by (vm_compute; reflexivity).
  assert (H2 : Int64.in_range (limit (writeAll (newLimitedBuffer 1) [[x61]])))
    by (vm_compute; split; discriminate).
  assert (H3 : Int64.in_range
                 (written (writeAll (newLimitedBuffer 1) [[x61]])))
    by (vm_compute; split; discriminate).
  assert (H4 : limit (writeAll (newLimitedBuffer 1) [[x61]])
               <= written (writeAll (newLimitedBuffer 1) [[x61]]))
    by (vm_compute; discriminate).
  split; [repeat split; try apply H2; try apply H3; assumption|].
  exact (proj1 (proj1 (Write_at_capacity
                         (writeAll (newLimitedBuffer 1) [[x61]]) []
                         H1 H2 H3 H4))).
Defined.

(** ** runCommand *)

Section RunCommand.

Variable w : World.
Variable cfg : Config.
Variable pid : Z.
Hypothesis started : w_start w = inr pid.

(** The result of a call whose process was started, in terms of what
    [Wait] left behind. *)
Lemma runCommand_started :
  let '(so, se) := captureBuffers w cfg in
  let '(st, err) := cmdWait pid (w_wait w) in
  let waitErr := if w_ctx_first w
                 then Some (Errorf_w_v ErrContextDone err) else err in
  fst (runCommand w cfg)
  = {| Stdout := buf so; Stderr := buf se;
       ExitCode := resolveExitCode st waitErr; Err := waitErr;
       Duration := w_elapsed w;
       StdoutTruncated := truncated so;
       StderrTruncated := truncated se |}.
Proof.
  unfold runCommand; rewrite started.
  destruct (captureBuffers w cfg) as [so se].
  destruct (cmdWait pid (w_wait w)) as [st err].
  destruct (w_ctx_first w); reflexivity.
Qed.

(** The branch of lines 66-76 never decides: whenever [Wait] returns
    an [exec.ExitError] it has stored the process state, and the state
    is consulted first. *)
Lemma runCommand_exit_code :
  ExitCode (fst (runCommand w cfg))
  = match w_wait w with
    | Reaped status _ => WS.ExitStatus status
    | WaitFailed _ => -1
    end.
Proof.
  pose proof runCommand_started as H.
  destruct (captureBuffers w cfg) as [so se].
  destruct (w_wait w) as [status o|msg]; cbn in H; rewrite H; cbn.
  - reflexivity.
  - destruct (w_ctx_first w); reflexivity.
Qed.

Lemma runCommand_err :
  Err (fst (runCommand w cfg))
  = if w_ctx_first w
    then Some (Errorf_w_v ErrContextDone (snd (cmdWait pid (w_wait w))))
    else snd (cmdWait pid (w_wait w)).
Proof.
  pose proof runCommand_started as H.
  destruct (captureBuffers w cfg) as [so se].
  destruct (cmdWait pid (w_wait w)) as [st err].
  rewrite H; reflexivity.
Qed.

Lemma runCommand_events :
  snd (runCommand w cfg)
  = EvStart cfg
    :: (if w_ctx_first w then [EvKill (- pid) SIGKILL; EvWaitDone]
        else [EvWaitDone]).
Proof.
  unfold runCommand; rewrite started.
  destruct (captureBuffers w cfg) as [so se].
  destruct (cmdWait pid (w_wait w)) as [st err].
  destruct (w_ctx_first w); reflexivity.
Qed.

End RunCommand.

(** C1 (as stated) fails: the context fires first, and the wait then
    resolves with a process that exited on its own with status 3 (it
    finished between the firing and the kill, or it was a shell whose
    background child kept the pipes, and so the wait, open); the error is
    of the cancellation class, yet the exit code is 3 and not the
    sentinel. *)
Lemma cancelled_exit_code_counterexample :
  let w := sampleWorld true (Reaped (WS.of_exit 3) None) in
  let r := fst (runCommand w (defaultConfig sh)) in
  errorsIs (Err r) ErrContextDone = true /\
  ExitCode r = 3 /\ ExitCode r <> -1.
Proof. vm_compute. repeat split; discriminate. Qed.

(** C1 (amended): when the context fires before the wait resolves, the
    process group is sent SIGKILL and the wait is then received; the
    error of the result is [fmt.Errorf("%w: %v", ErrContextDone, err)]
    for the error [err] the wait returned, so it is of the cancellation
    class and not of the start-failure class; the exit code is read from
    the process state the wait recorded: the sentinel -1 when the process
    did not exit normally (a death by signal, as the kill produces) or
    when the wait itself failed, and the status of the process when it
    had exited normally. *)
Theorem cancelled_result (w : World) (cfg : Config) (pid : Z) :
  w_start w = inr pid ->
  w_ctx_first w = true ->
  let r := fst (runCommand w cfg) in
  Err r = Some (Errorf_w_v ErrContextDone (snd (cmdWait pid (w_wait w)))) /\
  errorsIs (Err r) ErrContextDone = true /\
  errorsIs (Err r) ErrStart = false /\
  snd (runCommand w cfg)
  = [EvStart cfg; EvKill (- pid) SIGKILL; EvWaitDone] /\
  (forall status o, w_wait w = Reaped status o ->
     WS.Exited status = false -> ExitCode r = -1) /\
  (forall msg, w_wait w = WaitFailed msg -> ExitCode r = -1) /\
  (forall status o, w_wait w = Reaped status o ->
     WS.Exited status = true -> ExitCode r = WS.ExitStatus status).
Proof.
  intros Hs Hc r. subst r.
  rewrite (runCommand_err w cfg pid Hs), (runCommand_events w cfg pid Hs),
    (runCommand_exit_code w cfg pid Hs), Hc.
  repeat split; try reflexivity.
  - intros status o Hw Hex. rewrite Hw. unfold WS.ExitStatus.
    rewrite Hex. reflexivity.
  - intros msg Hw. rewrite Hw. reflexivity.
  - intros status o Hw _. rewrite Hw. reflexivity.
Qed.

Lemma cancelled_result_witness :
  let w := sampleWorld true (Reaped (WS.of_signal SIGKILL) None) in
  (w_start w = inr 4242 /\ w_ctx_first w = true) /\
  errorsIs (Err (fst (runCommand w (defaultConfig sh)))) ErrContextDone
  = true.
Proof.
  split; [split; reflexivity|].
  exact (proj1 (proj2 (cancelled_result
    (sampleWorld true (Reaped (WS.of_signal SIGKILL) None))
    (defaultConfig sh) 4242 eq_refl eq_refl))).
Defined.

(** C2, the code at the failing input: a process that runs to the end
    without cancellation and dies of signal 9. The wait records its
    state, so line 65 answers with [ExitCode()], which is -1 for a
    process that did not exit; the 128 + signal of line 72 is not
    reached. *)
Theorem signaled_exit_code_is_sentinel :
  let status := WS.of_signal SIGKILL in
  let w := sampleWorld false (Reaped status None) in
  let r := fst (runCommand w (defaultConfig sh)) in
  WS.Signaled status = true /\ WS.Signal status = 9 /\
  ExitCode r = -1 /\ ExitCode r <> 128 + WS.Signal status.
Proof. vm_compute. repeat split; discriminate. Qed.

(** C3 (as stated) fails: a process that runs to completion, without
    cancellation, and exits with status 1 yields exit code 1 and an
    error that is not nil: the [exec.ExitError] that [Wait] returns. *)
Lemma clean_nonzero_exit_error_counterexample :
  let w := sampleWorld false (Reaped (WS.of_exit 1) None) in
  let r := fst (runCommand w (defaultConfig sh)) in
  WS.Exited (WS.of_exit 1) = true /\ ExitCode r = 1 /\
  Err r = Some (ExitError {| ps_pid := 4242; ps_status := WS.of_exit 1 |}) /\
  Err r <> None.
Proof. vm_compute. repeat split; discriminate. Qed.

(** C3 (amended): for a process that was started, was not cancelled and
    exited normally, the error of the result is the error [Wait]
    returned: it is nil exactly when the exit status is zero and [Wait]
    had no other error to report, and it is the [exec.ExitError] holding
    the process state when the exit status is not zero. *)
Theorem completed_error (w : World) (cfg : Config) (pid : Z)
    (status : WaitStatus) (otherErr : option error) :
  w_start w = inr pid ->
  w_ctx_first w = false ->
  w_wait w = Reaped status otherErr ->
  WS.Exited status = true ->
  let r := fst (runCommand w cfg) in
  (WS.ExitStatus status = 0 -> Err r = otherErr) /\
  (WS.ExitStatus status <> 0 ->
   Err r = Some (ExitError {| ps_pid := pid; ps_status := status |})) /\
  (Err r = None <-> WS.ExitStatus status = 0 /\ otherErr = None).
Proof.
  intros Hs Hc Hw Hex r. subst r.
  rewrite (runCommand_err w cfg pid Hs), Hc, Hw. cbn.
  unfold Success, ExitCode_; cbn.
  destruct (WS.ExitStatus status =? 0) eqn:E; cbn.
  - apply Z.eqb_eq in E. repeat split; try tauto; congruence.
  - apply Z.eqb_neq in E.
    repeat split; try tauto; try congruence; intros H; discriminate.
Qed.

Lemma completed_error_witness :
  let w := sampleWorld false (Reaped (WS.of_exit 0) None) in
  (w_start w = inr 4242 /\ w_ctx_first w = false /\
   w_wait w = Reaped (WS.of_exit 0) None /\
   WS.Exited (WS.of_exit 0) = true /\ WS.ExitStatus (WS.of_exit 0) = 0) /\
  Err (fst (runCommand w (defaultConfig sh))) = None.
Proof.
  split; [repeat split; reflexivity|].
  exact (proj1 (completed_error
    (sampleWorld false (Reaped (WS.of_exit 0) None))
    (defaultConfig sh) 4242 (WS.of_exit 0) None
    eq_refl eq_refl eq_refl eq_refl) eq_refl).
Defined.

(** The wait status of a normal exit with code [k] reads back as [k]. *)
Lemma of_exit_spec (k : Z) :
  0 <= k <= 255 ->
  WS.Exited (WS.of_exit k) = true /\ WS.ExitStatus (WS.of_exit k) = k.
Proof.
  intros Hk.
  assert (Hst : WS.of_exit k = k * 2 ^ 8).
  { unfold WS.of_exit, WS.shift. change 255 with (Z.ones 8).
    rewrite Z.land_ones, Z.shiftl_mul_pow2, Z.mod_small by lia.
    reflexivity. }
  assert (Hex : WS.Exited (WS.of_exit k) = true).
  { unfold WS.Exited, WS.mask, WS.exited. rewrite Hst.
    change 127 with (Z.ones 7). rewrite Z.land_ones by lia.
    replace (k * 2 ^ 8) with ((k * 2) * 2 ^ 7) by lia.
    rewrite Z.mod_mul by lia. reflexivity. }
  split; [exact Hex|].
  unfold WS.ExitStatus. rewrite Hex; cbn [negb].
  rewrite Hst. unfold WS.shift.
  rewrite Z.shiftr_div_pow2, Z.div_mul by lia.
  change 255 with (Z.ones 8). rewrite Z.land_ones, Z.mod_small by lia.
  reflexivity.
Qed.




(** ** Run *)

Lemma Run_nonempty (w : World) (c : string) (opts : list Option) :
  c <> EmptyString ->
  Run w c opts
  = (fst (runCommand w (applyOptions opts (defaultConfig c))),
     map (fun _ => EvOption) opts
     ++ snd (runCommand w (applyOptions opts (defaultConfig c)))).
Proof.
  intros Hc. unfold Run.
  destruct (String.eqb_spec c EmptyString) as [E|_]; [contradiction|].
  destruct (runCommand w (applyOptions opts (defaultConfig c)));
    reflexivity.
Qed.

Lemma applyOptions_limit (ms : list Mutation) (cfg : Config) :
  maxOutput (applyOptions (map toOption ms) cfg)
  = requestedLimit ms (maxOutput cfg).
Proof.
  revert cfg; induction ms as [|m ms IH]; intros cfg; cbn;
    [reflexivity|].
  unfold applyOptions in IH; rewrite IH.
  destruct m; reflexivity.
Qed.

(** C7: with an empty command, whatever the options and whatever the
    environment would answer, [Run] returns exit code -1, the error
    [errors.New("executor: command cannot be empty")] (which is of
    neither sentinel class), zero duration, empty captured stdout and
    stderr and clear truncation flags; and it does nothing on the way:
    no option is applied, no process is started, killed or waited for. *)
Theorem Run_empty_command (w : World) (opts : list Option) :
  Run w EmptyString opts
  = ({| Stdout := []; Stderr := []; ExitCode := -1;
        Err := Some (ErrorsNew "executor: command cannot be empty");
        Duration := 0;
        StdoutTruncated := false; StderrTruncated := false |}, []) /\
  errorsIs (Err (fst (Run w EmptyString opts))) ErrStart = false /\
  errorsIs (Err (fst (Run w EmptyString opts))) ErrContextDone = false.
Proof. repeat split. Qed.

(** C10: for every call that gets as far as starting its process, the
    stdout buffer and the stderr buffer are both created with the one
    [maxOutput] of the configuration, which is the argument of the last
    [WithMaxOutput] among the options or the default 10240; each buffer
    is filled from its own stream alone, with that whole budget; and
    whatever the option functions are, the two limits are equal. *)
Theorem capture_limit_shared (w : World) (c : string) (ms : list Mutation)
    (pid : Z) :
  c <> EmptyString ->
  w_start w = inr pid ->
  let n := requestedLimit ms (1024 * 10) in
  let r := fst (Run w c (map toOption ms)) in
  let so := writeAll (newLimitedBuffer n) (w_stdout w) in
  let se := writeAll (newLimitedBuffer n) (w_stderr w) in
  captureBuffers w (applyOptions (map toOption ms) (defaultConfig c))
  = (so, se) /\
  limit so = n /\ limit se = n /\
  (Stdout r = buf so /\ StdoutTruncated r = truncated so) /\
  (Stderr r = buf se /\ StderrTruncated r = truncated se) /\
  (forall opts : list Option,
     let cfg := applyOptions opts (defaultConfig c) in
     limit (fst (captureBuffers w cfg)) = maxOutput cfg /\
     limit (snd (captureBuffers w cfg)) = maxOutput cfg).
Proof.
  intros Hc Hs n r so se.
  assert (Hcap : captureBuffers w
                   (applyOptions (map toOption ms) (defaultConfig c))
                 = (so, se)).
  { unfold captureBuffers. rewrite applyOptions_limit. reflexivity. }
  split; [exact Hcap|].
  split; [apply writeAll_limit|].
  split; [apply writeAll_limit|].
  assert (Hr : Stdout r = buf so /\ StdoutTruncated r = truncated so /\
               Stderr r = buf se /\ StderrTruncated r = truncated se).
  { subst r. rewrite (Run_nonempty w c _ Hc); cbn [fst].
    pose proof (runCommand_started w
                  (applyOptions (map toOption ms) (defaultConfig c))
                  pid Hs) as H.
    rewrite Hcap in H.
    destruct (cmdWait pid (w_wait w)) as [st err].
    rewrite H; cbn. repeat split; reflexivity. }
  split; [tauto|]. split; [tauto|].
  intros opts cfg. unfold captureBuffers; cbn [fst snd].
  split; apply writeAll_limit.
Qed.

Lemma capture_limit_shared_witness :
  let w := {| w_start := inr 4242; w_ctx_first := false;
              w_wait := Reaped (WS.of_exit 0) None;
              w_stdout := [[x61; x62; x63]]; w_stderr := [[x64]];
              w_elapsed := 100 |} in
  (sh <> EmptyString /\ w_start w = inr 4242) /\
  limit (writeAll (newLimitedBuffer
                     (requestedLimit [SetMaxOutput 5; SetMaxOutput 2]
                        (1024 * 10)))
           (w_stderr w)) = 2.
Proof.
  assert (H : sh <> EmptyString) by discriminate.
  split; [split; [exact H | reflexivity]|].
  exact (proj1 (proj2 (proj2 (capture_limit_shared
    {| w_start := inr 4242; w_ctx_first := false;
       w_wait := Reaped (WS.of_exit 0) None;
       w_stdout := [[x61; x62; x63]]; w_stderr := [[x64]];
       w_elapsed := 100 |}
    sh [SetMaxOutput 5; SetMaxOutput 2] 4242 H eq_refl)))).
Defined.

(** * Further properties of the limited buffer *)

Lemma wrap_add_idemp (a b : Z) :
  Int64.wrap (Int64.wrap a + b) = Int64.wrap (a + b).
Proof.
  unfold Int64.wrap.
  replace ((a + 2 ^ 63) mod 2 ^ 64 - 2 ^ 63 + b + 2 ^ 63)
    with ((a + 2 ^ 63) mod 2 ^ 64 + b) by lia.
  rewrite Zplus_mod_idemp_l. f_equal. f_equal. lia.
Qed.

(** A flag still clear after a run of writes means that everything
    offered fitted. *)
Lemma writeAll_clear_fits (chunks : list (list byte)) (b : limitedBuffer) :
  bounded_inv b ->
  truncated (writeAll b chunks) = false ->
  truncated b = false /\ written b + len (List.concat chunks) <= limit b.
Proof.
  revert b; induction chunks as [|p chunks IH]; intros b Hinv Hf; cbn in *.
  - split; [exact Hf|]. destruct Hinv as (_ & _ & _ & Hle).
    unfold len; cbn. lia.
  - destruct (Write_bounded b p Hinv) as (Hinv' & Hbuf & Htr).
    destruct (IH _ Hinv' Hf) as (Hf' & Hfit).
    rewrite Hf' in Htr. rewrite Write_limit in Hfit.
    symmetry in Htr. apply orb_false_iff in Htr. destruct Htr as (Htr & H2).
    apply orb_false_iff in Htr. destruct Htr as (Hb & H1).
    apply Z.leb_gt in H1. apply Z.ltb_ge in H2.
    assert (Hw' : written (fst (Write b p)) = written b + len p).
    { destruct Hinv' as (_ & _ & Hw' & _). rewrite Hw', Hbuf.
      destruct Hinv as (_ & _ & Hw & _).
      rewrite firstn_all2, len_app; [lia|].
      rewrite length_app. unfold len in *. lia. }
    rewrite Hw' in Hfit. rewrite len_app. split; [exact Hb | lia].
Qed.

(** A flag raised by a run of writes on a buffer whose flag was clear
    means that at least the remaining room was offered. *)
Lemma writeAll_raised_full (chunks : list (list byte)) (b : limitedBuffer) :
  bounded_inv b ->
  truncated (writeAll b chunks) = true ->
  truncated b = true \/ limit b <= written b + len (List.concat chunks).
Proof.
  revert b; induction chunks as [|p chunks IH]; intros b Hinv Ht; cbn in *.
  - left; exact Ht.
  - destruct (Write_bounded b p Hinv) as (Hinv' & Hbuf & Htr).
    pose proof (len_nonneg p). pose proof (len_nonneg (List.concat chunks)).
    rewrite len_app.
    destruct (IH _ Hinv' Ht) as [Ht'|Hfull].
    + rewrite Ht' in Htr. symmetry in Htr.
      apply orb_true_iff in Htr. destruct Htr as [Htr|H2].
      * apply orb_true_iff in Htr. destruct Htr as [Hb|H1];
          [left; exact Hb | right; apply Z.leb_le in H1; lia].
      * right. apply Z.ltb_lt in H2. lia.
    + right. rewrite Write_limit in Hfull.
      assert (written (fst (Write b p)) <= written b + len p).
      { destruct Hinv' as (_ & _ & Hw' & _). rewrite Hw', Hbuf.
        destruct Hinv as (_ & _ & Hw & _).
        unfold len in *. rewrite length_firstn, length_app. lia. }
      lia.
Qed.

(** The contents of a fresh buffer after a run of writes, for any
    limit. *)
Lemma fresh_sink_buf (n : Z) (chunks : list (list byte)) :
  Int64.in_range n ->
  buf (writeAll (newLimitedBuffer n) chunks)
  = if 0 <? n then firstn (Z.to_nat n) (List.concat chunks)
    else List.concat chunks.
Proof.
  intros Hn. destruct (0 <? n) eqn:E.
  - apply Z.ltb_lt in E.
    destruct (writeAll_bounded chunks _ (new_bounded_inv n E Hn))
      as (_ & Hbuf). exact Hbuf.
  - apply Z.ltb_ge in E.
    destruct (writeAll_unbounded chunks (newLimitedBuffer n) E) as (Hb & _).
    exact Hb.
Qed.

Lemma fresh_sink_clear (n : Z) (chunks : list (list byte)) :
  Int64.in_range n ->
  truncated (writeAll (newLimitedBuffer n) chunks) = false ->
  buf (writeAll (newLimitedBuffer n) chunks) = List.concat chunks.
Proof.
  intros Hn Hf. rewrite (fresh_sink_buf n chunks Hn).
  destruct (0 <? n) eqn:E; [|reflexivity].
  apply Z.ltb_lt in E.
  destruct (writeAll_clear_fits chunks _ (new_bounded_inv n E Hn) Hf)
    as (_ & Hfit).
  cbn in Hfit. apply firstn_all2. unfold len in Hfit. lia.
Qed.

(** X1: a fresh buffer with a positive limit [n] holds, after any
    sequence of writes, exactly the first [n] bytes of everything written
    to it; its counter is the number of bytes it stores, the smaller of
    [n] and the total written. *)
Theorem bounded_sink_contents (n : Z) (chunks : list (list byte)) :
  0 < n -> Int64.in_range n ->
  let b := writeAll (newLimitedBuffer n) chunks in
  buf b = firstn (Z.to_nat n) (List.concat chunks) /\
  written b = len (buf b) /\
  written b = Z.min n (len (List.concat chunks)).
Proof.
  intros Hpos Hn b.
  destruct (writeAll_bounded chunks _ (new_bounded_inv n Hpos Hn))
    as ((_ & _ & Hw & _) & Hbuf).
  fold b in Hw, Hbuf. cbn in Hbuf.
  split; [exact Hbuf|]. split; [exact Hw|].
  rewrite Hw, Hbuf. unfold len. rewrite length_firstn. lia.
Qed.

Lemma bounded_sink_contents_witness :
  (0 < 2 /\ Int64.in_range 2) /\
  buf (writeAll (newLimitedBuffer 2) [[x61]; []; [x62; x63]; [x64]])
  = firstn (Z.to_nat 2) (List.concat [[x61]; []; [x62; x63]; [x64]]).
Proof.
  assert (H1 : 0 < 2) by lia.
  assert (H2 : Int64.in_range 2) by int64_bounds.
  split; [split; assumption|].
  exact (proj1 (bounded_sink_contents 2 [[x61]; []; [x62; x63]; [x64]]
                  H1 H2)).
Defined.

(** X2: the truncated flag never hides a loss and never fires early. For
    a fresh buffer of any limit and any sequence of writes: a clear flag
    means the buffer holds everything that was written; writing more
    than a positive limit always raises the flag; writing less than the
    limit never does. *)
Theorem truncated_flag_sound (n : Z) (chunks : list (list byte)) :
  Int64.in_range n ->
  let b := writeAll (newLimitedBuffer n) chunks in
  let total := List.concat chunks in
  (truncated b = false -> buf b = total) /\
  (0 < n -> n < len total -> truncated b = true) /\
  (len total < n -> truncated b = false).
Proof.
  intros Hn b total.
  destruct (Z.le_gt_cases n 0) as [Hle|Hpos].
  - destruct (writeAll_unbounded chunks (newLimitedBuffer n) Hle)
      as (Hb & Ht). fold b in Hb, Ht. cbn in Hb, Ht.
    repeat split; intros; try assumption; lia.
  - pose proof (new_bounded_inv n ltac:(lia) Hn) as Hinv.
    assert (Hclear : truncated b = false -> buf b = total).
    { intros Hf.
      destruct (writeAll_clear_fits chunks _ Hinv Hf) as (_ & Hfit).
      destruct (writeAll_bounded chunks _ Hinv) as (_ & Hbuf).
      fold b in Hbuf. cbn in Hbuf, Hfit. rewrite Hbuf.
      apply firstn_all2. fold total in Hfit. unfold len in Hfit. lia. }
    repeat split.
    + exact Hclear.
    + intros _ Hbig. destruct (truncated b) eqn:E; [reflexivity|].
      destruct (writeAll_clear_fits chunks _ Hinv E) as (_ & Hfit).
      cbn in Hfit. fold total in Hfit. lia.
    + intros Hsmall. destruct (truncated b) eqn:E; [|reflexivity].
      destruct (writeAll_raised_full chunks _ Hinv E) as [Hb|Hfull];
        cbn in *; [discriminate|]. fold total in Hfull. lia.
Qed.

Lemma truncated_flag_sound_witness :
  Int64.in_range 3 /\
  (len (List.concat [[x61]; [x62]]) < 3 ->
   truncated (writeAll (newLimitedBuffer 3) [[x61]; [x62]]) = false).
Proof.
  assert (H : Int64.in_range 3) by int64_bounds.
  split; [exact H|].
  exact (proj2 (proj2 (truncated_flag_sound 3 [[x61]; [x62]] H))).
Defined.

Lemma writeAll_unbounded_written (cs : list (list byte))
    (b0 : limitedBuffer) :
  limit b0 <= 0 -> Int64.in_range (written b0) ->
  written (writeAll b0 cs)
  = Int64.wrap (written b0 + len (List.concat cs)).
Proof.
  revert b0; induction cs as [|p cs IH]; intros b0 Hl Hr; cbn.
  - unfold len; cbn. rewrite Z.add_0_r, wrap_small by exact Hr.
    reflexivity.
  - assert (Hstep : limit (fst (Write b0 p)) <= 0 /\
                    written (fst (Write b0 p))
                    = Int64.wrap (written b0 + len p)).
    { unfold Write, bufWrite.
      replace (limit b0 <=? 0) with true by (symmetry; apply Z.leb_le; lia).
      cbn. split; [lia | reflexivity]. }
    destruct Hstep as (Hl' & Hw').
    unfold writeAll in IH. rewrite (IH _ Hl'), Hw'.
    + rewrite wrap_add_idemp, len_app. f_equal. lia.
    + rewrite Hw'. apply wrap_in_range.
Qed.

(** X3: a buffer whose limit is zero or negative is unbounded: after any
    sequence of writes it holds every byte written, its flag is clear,
    and its counter is the total length written, reduced to an [int64]
    (so the total itself as long as that fits). *)
Theorem unbounded_sink_keeps_all (n : Z) (chunks : list (list byte)) :
  n <= 0 ->
  let b := writeAll (newLimitedBuffer n) chunks in
  buf b = List.concat chunks /\ truncated b = false /\
  written b = Int64.wrap (len (List.concat chunks)) /\
  (len (List.concat chunks) <= Int64.max_int ->
   written b = len (List.concat chunks)).
Proof.
  intros Hle b.
  destruct (writeAll_unbounded chunks (newLimitedBuffer n) Hle) as (Hb & Ht).
  fold b in Hb, Ht. cbn in Hb, Ht.
  assert (Hw : written b = Int64.wrap (len (List.concat chunks))).
  { subst b. rewrite writeAll_unbounded_written; cbn;
      [reflexivity | exact Hle | int64_bounds]. }
  repeat split; try assumption.
  intros Hfit. rewrite Hw. apply wrap_small.
  pose proof (len_nonneg (List.concat chunks)). int64_bounds.
Qed.

Lemma unbounded_sink_keeps_all_witness :
  0 <= 0 /\
  buf (writeAll (newLimitedBuffer 0) [[x61; x62]; [x63]])
  = List.concat [[x61; x62]; [x63]].
Proof.
  assert (H : 0 <= 0) by lia.
  split; [exact H|].
  exact (proj1 (unbounded_sink_keeps_all 0 [[x61; x62]; [x63]] H)).
Defined.

(** * Further properties of Run and runCommand *)

Lemma ExitStatus_range (s : WaitStatus) :
  WS.ExitStatus s = -1 \/ 0 <= WS.ExitStatus s <= 255.
Proof.
  unfold WS.ExitStatus. destruct (WS.Exited s); cbn [negb]; [right | left].
  - assert (H : Z.land (Z.shiftr s WS.shift) 255
                = Z.shiftr s WS.shift mod 2 ^ 8)
      by (change 255 with (Z.ones 8); apply Z.land_ones; lia).
    rewrite H.
    pose proof (Z.mod_pos_bound (Z.shiftr s WS.shift) (2 ^ 8) ltac:(lia)).
    lia.
  - reflexivity.
Qed.

(** What [Run] hands back for a command that is not empty and whose
    process was started: the captures come from the two buffers built
    with the requested limit. *)
Lemma Run_captures (w : World) (c : string) (ms : list Mutation) (pid : Z) :
  c <> EmptyString ->
  w_start w = inr pid ->
  let n := requestedLimit ms (1024 * 10) in
  let r := fst (Run w c (map toOption ms)) in
  let so := writeAll (newLimitedBuffer n) (w_stdout w) in
  let se := writeAll (newLimitedBuffer n) (w_stderr w) in
  Stdout r = buf so /\ StdoutTruncated r = truncated so /\
  Stderr r = buf se /\ StderrTruncated r = truncated se.
Proof.
  intros Hc Hs n r so se. subst r.
  rewrite (Run_nonempty w c _ Hc); cbn [fst].
  pose proof (runCommand_started w
                (applyOptions (map toOption ms) (defaultConfig c))
                pid Hs) as H.
  unfold captureBuffers in H. rewrite applyOptions_limit in H.
  cbn [maxOutput defaultConfig] in H. fold n in H. fold so se in H.
  destruct (cmdWait pid (w_wait w)) as [st err].
  rewrite H; cbn. repeat split; reflexivity.
Qed.

(** X4: when the command is not empty and the operating system fails to
    start it, [Run] returns exit code -1, an error of the start-failure
    class (and not of the cancellation class) built from the error of
    [Start], zero duration and empty captures, whatever output or wait
    outcome the environment holds; the options were applied and a start
    attempted, and nothing was killed or waited for. *)
Theorem Run_start_failure (w : World) (c : string) (opts : list Option)
    (e : error) :
  c <> EmptyString ->
  w_start w = inl e ->
  Run w c opts
  = ({| Stdout := []; Stderr := []; ExitCode := -1;
        Err := Some (Errorf_w_v ErrStart (Some e)); Duration := 0;
        StdoutTruncated := false; StderrTruncated := false |},
     map (fun _ => EvOption) opts
     ++ [EvStart (applyOptions opts (defaultConfig c))]) /\
  errorsIs (Err (fst (Run w c opts))) ErrStart = true /\
  errorsIs (Err (fst (Run w c opts))) ErrContextDone = false.
Proof.
  intros Hc Hs. rewrite (Run_nonempty w c opts Hc).
  unfold runCommand. rewrite Hs. cbn. repeat split.
Qed.

Lemma Run_start_failure_witness :
  let w := {| w_start := inl (OsError "executable file not found");
              w_ctx_first := true; w_wait := Reaped 0 None;
              w_stdout := [[x61]]; w_stderr := []; w_elapsed := 5 |} in
  (sh <> EmptyString /\
   w_start w = inl (OsError "executable file not found")) /\
  errorsIs (Err (fst (Run w sh [WithDir sh]))) ErrStart = true.
Proof.
  assert (H : sh <> EmptyString) by discriminate.
  split; [split; [exact H | reflexivity]|].
  exact (proj1 (proj2 (Run_start_failure
    {| w_start := inl (OsError "executable file not found");
       w_ctx_first := true; w_wait := Reaped 0 None;
       w_stdout := [[x61]]; w_stderr := []; w_elapsed := 5 |}
    sh [WithDir sh] (OsError "executable file not found") H eq_refl))).
Defined.

(** X5: whatever the command, the options and the environment, the exit
    code [Run] reports on the Unix variant is the sentinel -1 or a value
    from 0 to 255. *)
Theorem Run_exit_code_range (w : World) (c : string) (opts : list Option) :
  let r := fst (Run w c opts) in
  ExitCode r = -1 \/ 0 <= ExitCode r <= 255.
Proof.
  cbn zeta.
  destruct (String.eqb_spec c EmptyString) as [E|Hc].
  - subst c. left. reflexivity.
  - rewrite (Run_nonempty w c opts Hc); cbn [fst].
    destruct (w_start w) as [e|pid] eqn:Hs.
    + left. unfold runCommand. rewrite Hs. reflexivity.
    + rewrite (runCommand_exit_code w _ pid Hs).
      destruct (w_wait w) as [status o|msg];
        [apply ExitStatus_range | left; reflexivity].
Qed.

(** X6: for a command that is not empty, the class of the error tells
    the path taken: it is of the start-failure class exactly when the
    start failed, and of the cancellation class exactly when the process
    was started and the context fired before the wait resolved (any
    other error the wait reports next to a successful exit being assumed
    not to be one of the two sentinels). *)
Theorem error_class_by_path (w : World) (c : string) (opts : list Option) :
  c <> EmptyString ->
  (forall status o, w_wait w = Reaped status o ->
     errorsIs o ErrContextDone = false /\ errorsIs o ErrStart = false) ->
  let r := fst (Run w c opts) in
  (errorsIs (Err r) ErrStart = true <-> exists e, w_start w = inl e) /\
  (errorsIs (Err r) ErrContextDone = true <->
   (exists pid, w_start w = inr pid) /\ w_ctx_first w = true).
Proof.
  intros Hc Ho r. subst r.
  rewrite (Run_nonempty w c opts Hc); cbn [fst].
  destruct (w_start w) as [e|pid] eqn:Hs.
  - unfold runCommand; rewrite Hs; cbn. split; split.
    + intros _. exists e. reflexivity.
    + reflexivity.
    + discriminate.
    + intros ((pid & Hpid) & _). discriminate.
  - rewrite (runCommand_err w _ pid Hs).
    destruct (w_ctx_first w) eqn:Hctx; cbn.
    + split; split.
      * discriminate.
      * intros (e & He). discriminate.
      * intros _. split; [exists pid|]; reflexivity.
      * reflexivity.
    + assert (Hn : errorsIs (snd (cmdWait pid (w_wait w))) ErrStart = false
                   /\ errorsIs (snd (cmdWait pid (w_wait w))) ErrContextDone
                      = false).
      { destruct (w_wait w) as [status o|msg] eqn:Hw; cbn.
        - destruct (Ho status o eq_refl) as (H1 & H2).
          destruct (negb (Success {| ps_pid := pid; ps_status := status |}));
            cbn; split; assumption || reflexivity.
        - split; reflexivity. }
      destruct Hn as (Hn1 & Hn2). rewrite Hn1, Hn2. split; split.
      * discriminate.
      * intros (e & He). discriminate.
      * discriminate.
      * intros (_ & H). discriminate.
Qed.

Lemma error_class_by_path_witness :
  let w := sampleWorld true (Reaped (WS.of_signal SIGKILL) None) in
  (sh <> EmptyString /\
   (forall status o, w_wait w = Reaped status o ->
      errorsIs o ErrContextDone = false /\ errorsIs o ErrStart = false)) /\
  (errorsIs (Err (fst (Run w sh []))) ErrContextDone = true <->
   (exists pid, w_start w = inr pid) /\ w_ctx_first w = true).
Proof.
  assert (H : sh <> EmptyString) by discriminate.
  assert (Ho : forall status o,
             w_wait (sampleWorld true (Reaped (WS.of_signal SIGKILL) None))
             = Reaped status o ->
             errorsIs o ErrContextDone = false /\ errorsIs o ErrStart = false).
  { intros status o Heq. inversion Heq. split; reflexivity. }
  split; [split; [exact H | exact Ho]|].
  exact (proj2 (error_class_by_path
    (sampleWorld true (Reaped (WS.of_signal SIGKILL) None)) sh [] H Ho)).
Defined.

(** X7: the kill of line 54, the call of [syscall.Kill] that
    [runCommand] makes itself, happens only for a started process whose
    context branch was taken, and then it is SIGKILL sent to the negated
    pid of the child, that is to its process group: the trace of a call
    contains [EvKill p s] exactly when the command is not empty, the
    child got pid [- p], the context branch was taken and [s] is
    SIGKILL. (What [exec.CommandContext] does to the child on its own
    when the context is done is not part of the trace.) *)
Theorem kill_only_on_cancel (w : World) (c : string) (opts : list Option)
    (p s : Z) :
  In (EvKill p s) (snd (Run w c opts)) <->
  c <> EmptyString /\ w_start w = inr (- p) /\ w_ctx_first w = true /\
  s = SIGKILL.
Proof.
  destruct (String.eqb_spec c EmptyString) as [E|Hc].
  - subst c. cbn. split; [contradiction|]. intros (H & _). contradiction.
  - rewrite (Run_nonempty w c opts Hc); cbn [snd].
    rewrite in_app_iff.
    assert (Hopt : ~ In (EvKill p s) (map (fun _ : Option => EvOption) opts)).
    { intros Hin. apply in_map_iff in Hin.
      destruct Hin as (x & Hx & _). discriminate. }
    destruct (w_start w) as [e|pid] eqn:Hs.
    + unfold runCommand; rewrite Hs; cbn. split.
      * intros [H|[H|[]]]; [contradiction | discriminate].
      * intros (_ & H & _). discriminate.
    + rewrite (runCommand_events w _ pid Hs).
      destruct (w_ctx_first w) eqn:Hctx; cbn; split.
      * intros [H|[H|[H|[H|[]]]]]; try contradiction; try discriminate.
        inversion H; subst. repeat split; try assumption.
        f_equal. lia.
      * intros (_ & Hp & _ & Hsig). right. right. left.
        inversion Hp; subst. f_equal. lia.
      * intros [H|[H|[H|[]]]]; try contradiction; discriminate.
      * intros (_ & _ & H & _). discriminate.
Qed.

(** X8: for a started process and a requested limit [n], the captured
    stdout (and likewise stderr) is made of the bytes the copy of that
    stream delivered (the chunks [w_stdout], the child's whole output
    unless the caller's writer failed): all of them when [n] is zero or
    negative and the first [n] of them otherwise, so at most [n] bytes;
    and whenever the truncated flag of a stream is clear, the capture
    holds every byte delivered for that stream. *)
Theorem Run_capture_prefix (w : World) (c : string) (ms : list Mutation)
    (pid : Z) :
  c <> EmptyString ->
  w_start w = inr pid ->
  let n := requestedLimit ms (1024 * 10) in
  Int64.in_range n ->
  let r := fst (Run w c (map toOption ms)) in
  let out := List.concat (w_stdout w) in
  let err := List.concat (w_stderr w) in
  Stdout r = (if 0 <? n then firstn (Z.to_nat n) out else out) /\
  Stderr r = (if 0 <? n then firstn (Z.to_nat n) err else err) /\
  (0 < n -> len (Stdout r) <= n /\ len (Stderr r) <= n) /\
  (StdoutTruncated r = false -> Stdout r = out) /\
  (StderrTruncated r = false -> Stderr r = err).
Proof.
  intros Hc Hs n Hn r out err.
  destruct (Run_captures w c ms pid Hc Hs) as (H1 & H2 & H3 & H4).
  fold n in H1, H2, H3, H4. fold r in H1, H2, H3, H4.
  rewrite H1, H2, H3, H4.
  pose proof (fresh_sink_clear n (w_stdout w) Hn) as Ho.
  pose proof (fresh_sink_clear n (w_stderr w) Hn) as He.
  pose proof (fresh_sink_buf n (w_stdout w) Hn) as Hco.
  pose proof (fresh_sink_buf n (w_stderr w) Hn) as Hce.
  fold out in Hco. fold err in Hce.
  repeat split; try assumption.
  - rewrite Hco. replace (0 <? n) with true by (symmetry; apply Z.ltb_lt; lia).
    unfold len. rewrite length_firstn. lia.
  - rewrite Hce. replace (0 <? n) with true by (symmetry; apply Z.ltb_lt; lia).
    unfold len. rewrite length_firstn. lia.
Qed.

Lemma Run_capture_prefix_witness :
  let w := {| w_start := inr 4242; w_ctx_first := false;
              w_wait := Reaped (WS.of_exit 0) None;
              w_stdout := [[x61; x62]; [x63; x64]]; w_stderr := [[x65]];
              w_elapsed := 100 |} in
  (sh <> EmptyString /\ w_start w = inr 4242 /\
   Int64.in_range (requestedLimit [SetMaxOutput 3] (1024 * 10))) /\
  Stdout (fst (Run w sh (map toOption [SetMaxOutput 3]))) = [x61; x62; x63].
Proof.
  assert (H : sh <> EmptyString) by discriminate.
  assert (Hn : Int64.in_range (requestedLimit [SetMaxOutput 3] (1024 * 10)))
    by (cbn; int64_bounds).
  split; [split; [exact H | split; [reflexivity | exact Hn]]|].
  exact (proj1 (Run_capture_prefix
    {| w_start := inr 4242; w_ctx_first := false;
       w_wait := Reaped (WS.of_exit 0) None;
       w_stdout := [[x61; x62]; [x63; x64]]; w_stderr := [[x65]];
       w_elapsed := 100 |}
    sh [SetMaxOutput 3] 4242 H eq_refl Hn)).
Defined.

(** * Properties of the options *)




(** X10: options that write different fields of the configuration can be
    given in either order. *)
Theorem options_on_distinct_fields_commute (m1 m2 : Mutation)
    (cfg : Config) :
  fieldOf m1 <> fieldOf m2 ->
  toOption m1 (toOption m2 cfg) = toOption m2 (toOption m1 cfg).
Proof.
  intros Hne.
  destruct m1, m2; cbn in Hne; try reflexivity; contradiction.
Qed.

Lemma options_on_distinct_fields_commute_witness :
  fieldOf (SetDir sh) <> fieldOf (SetMaxOutput 7) /\
  WithDir sh (WithMaxOutput 7 (defaultConfig sh))
  = WithMaxOutput 7 (WithDir sh (defaultConfig sh)).
Proof.
  assert (H : fieldOf (SetDir sh) <> fieldOf (SetMaxOutput 7))
    by discriminate.
  split; [exact H|].
  exact (options_on_distinct_fields_commute
           (SetDir sh) (SetMaxOutput 7) (defaultConfig sh) H).
Defined.

(** X11: of two options on the same field the later one wins, the
    earlier one leaving no trace, except for [WithEnv], whose entries
    add up. *)
Theorem later_option_overrides (m1 m2 : Mutation) (cfg : Config) :
  fieldOf m1 = fieldOf m2 ->
  (fieldOf m2 <> FEnv ->
   toOption m2 (toOption m1 cfg) = toOption m2 cfg) /\
  (forall e1 e2, m1 = AddEnv e1 -> m2 = AddEnv e2 ->
     toOption m2 (toOption m1 cfg) = toOption (AddEnv (e1 ++ e2)) cfg).
Proof.
  intros Heq. split.
  - intros Hne.
    destruct m1, m2; cbn in Heq, Hne; try discriminate; try reflexivity;
      contradiction.
  - intros e1 e2 -> ->. cbn. unfold WithEnv; cbn.
    rewrite app_assoc. reflexivity.
Qed.

Lemma later_option_overrides_witness :
  fieldOf (SetArgs [sh]) = fieldOf (SetArgs []) /\
  (fieldOf (SetArgs []) <> FEnv ->
   WithArgs [] (WithArgs [sh] (defaultConfig sh))
   = WithArgs [] (defaultConfig sh)).
Proof.
  split; [reflexivity|].
  exact (proj1 (later_option_overrides
                  (SetArgs [sh]) (SetArgs []) (defaultConfig sh) eq_refl)).
Defined.

(** * The Windows variant *)

Lemma int_of_uint32_64 (x : Z) :
  0 <= x < 2 ^ 32 -> Windows.int_of_uint32 64 x = x.
Proof.
  intros Hx. unfold Windows.int_of_uint32.
  change (64 - 1) with 63. rewrite Z.mod_small; lia.
Qed.

Lemma int_of_uint32_32 (x : Z) :
  0 <= x < 2 ^ 32 ->
  Windows.int_of_uint32 32 x = if x <? 2 ^ 31 then x else x - 2 ^ 32.
Proof.
  intros Hx. unfold Windows.int_of_uint32. change (32 - 1) with 31.
  destruct (x <? 2 ^ 31) eqn:E.
  - apply Z.ltb_lt in E. rewrite Z.mod_small; lia.
  - apply Z.ltb_ge in E.
    replace (x + 2 ^ 31) with (x - 2 ^ 31 + 1 * 2 ^ 32) by lia.
    rewrite Z.mod_add, Z.mod_small; lia.
Qed.

Lemma int_of_uint32_small (intSize x : Z) :
  intSize = 32 \/ intSize = 64 -> 0 <= x <= 255 ->
  Windows.int_of_uint32 intSize x = x.
Proof.
  intros [-> | ->] Hx.
  - rewrite int_of_uint32_32 by lia.
    replace (x <? 2 ^ 31) with true by (symmetry; apply Z.ltb_lt; lia).
    reflexivity.
  - apply int_of_uint32_64. lia.
Qed.

Lemma Windows_runCommand_started (intSize : Z) (w : World) (cfg : Config)
    (pid : Z) :
  w_start w = inr pid ->
  let '(so, se) := captureBuffers w cfg in
  let '(st, err) := Windows.cmdWait intSize pid (w_wait w) in
  Windows.runCommand intSize w cfg
  = ({| Stdout := buf so; Stderr := buf se;
        ExitCode := match st with
                    | Some s => Windows.ExitCode_ intSize s
                    | None => -1
                    end;
        Err := if w_ctx_first w
               then Some (Errorf_w_v ErrContextDone err) else err;
        Duration := w_elapsed w;
        StdoutTruncated := truncated so;
        StderrTruncated := truncated se |},
     Windows.EvStart cfg
     :: (if w_ctx_first w
         then [Windows.EvProcessKill pid; Windows.EvWaitDone]
         else [Windows.EvWaitDone])).
Proof.
  intros Hs. unfold Windows.runCommand; rewrite Hs.
  destruct (captureBuffers w cfg) as [so se].
  destruct (Windows.cmdWait intSize pid (w_wait w)) as [st err].
  destruct (w_ctx_first w); reflexivity.
Qed.

(** X12: on Windows, when the context fires first, the child alone is
    killed by [runCommand] (its own pid, no process group) and the wait
    is then received; the error is of the cancellation class; and the
    exit code is the [uint32] exit code the wait reports for the
    process, converted to [int]. So on a build with a 64-bit [int] a
    reaped process yields its exit code itself and never the sentinel
    -1; on a build with a 32-bit [int] it yields -1 exactly for the exit
    code 0xFFFFFFFF. A failed wait yields -1 on both. *)
Theorem Windows_cancelled_result (intSize : Z) (w : World) (cfg : Config)
    (pid : Z) :
  w_start w = inr pid ->
  w_ctx_first w = true ->
  let r := fst (Windows.runCommand intSize w cfg) in
  snd (Windows.runCommand intSize w cfg)
  = [Windows.EvStart cfg; Windows.EvProcessKill pid; Windows.EvWaitDone] /\
  errorsIs (Err r) ErrContextDone = true /\
  errorsIs (Err r) ErrStart = false /\
  (forall status o, w_wait w = Reaped status o ->
     ExitCode r = Windows.int_of_uint32 intSize status) /\
  (forall status o, w_wait w = Reaped status o ->
     intSize = 64 -> 0 <= status < 2 ^ 32 ->
     ExitCode r = status /\ ExitCode r <> -1) /\
  (forall status o, w_wait w = Reaped status o ->
     intSize = 32 -> 0 <= status < 2 ^ 32 ->
     (ExitCode r = -1 <-> status = 2 ^ 32 - 1)) /\
  (forall msg, w_wait w = WaitFailed msg -> ExitCode r = -1).
Proof.
  intros Hs Hc r. subst r.
  pose proof (Windows_runCommand_started intSize w cfg pid Hs) as H.
  destruct (captureBuffers w cfg) as [so se].
  rewrite Hc in H.
  destruct (w_wait w) as [status o|msg]; cbn in H; rewrite H;
    cbn [fst snd ExitCode Err errorsIs Sentinel_eqb].
  - unfold Windows.ExitCode_, Windows.ExitStatus; cbn [ps_status].
    split; [reflexivity|]. split; [reflexivity|]. split; [reflexivity|].
    split; [|split; [|split]].
    + intros s o' Heq. inversion Heq. reflexivity.
    + intros s o' Heq -> Hr. inversion Heq; subst.
      rewrite int_of_uint32_64 by exact Hr. split; [reflexivity | lia].
    + intros s o' Heq -> Hr. inversion Heq; subst.
      rewrite int_of_uint32_32 by exact Hr.
      destruct (s <? 2 ^ 31) eqn:E;
        [apply Z.ltb_lt in E | apply Z.ltb_ge in E]; lia.
    + intros msg Heq. discriminate.
  - split; [reflexivity|]. split; [reflexivity|]. split; [reflexivity|].
    split; [|split; [|split]].
    + intros s o' Heq. discriminate.
    + intros s o' Heq. discriminate.
    + intros s o' Heq. discriminate.
    + intros m _. reflexivity.
Qed.

Lemma Windows_cancelled_result_witness :
  let w := sampleWorld true (Reaped 1 None) in
  (w_start w = inr 4242 /\ w_ctx_first w = true) /\
  snd (Windows.runCommand 64 w (defaultConfig sh))
  = [Windows.EvStart (defaultConfig sh); Windows.EvProcessKill 4242;
     Windows.EvWaitDone].
Proof.
  split; [split; reflexivity|].
  exact (proj1 (Windows_cancelled_result 64
    (sampleWorld true (Reaped 1 None)) (defaultConfig sh) 4242
    eq_refl eq_refl)).
Defined.

(** X13: for a process that exits normally with a code [K] from 0 to
    255, the Unix and the Windows variants assemble the same result:
    same exit code, same captures and flags, same duration, and errors
    that are nil together and of the same class, with or without
    cancellation, whatever the configuration and whether the Windows
    build has a 32-bit or a 64-bit [int]. *)
Theorem platforms_agree_on_normal_exit
    (intSize : Z)
    (start : error + Z) (cancelled : bool) (o : option error)
    (out err : list (list byte)) (elapsed K : Z) (cfg : Config) :
  intSize = 32 \/ intSize = 64 ->
  0 <= K <= 255 ->
  let wu := {| w_start := start; w_ctx_first := cancelled;
               w_wait := Reaped (WS.of_exit K) o;
               w_stdout := out; w_stderr := err; w_elapsed := elapsed |} in
  let ww := {| w_start := start; w_ctx_first := cancelled;
               w_wait := Reaped K o;
               w_stdout := out; w_stderr := err; w_elapsed := elapsed |} in
  let ru := fst (runCommand wu cfg) in
  let rw := fst (Windows.runCommand intSize ww cfg) in
  ExitCode ru = ExitCode rw /\
  Stdout ru = Stdout rw /\ Stderr ru = Stderr rw /\
  StdoutTruncated ru = StdoutTruncated rw /\
  StderrTruncated ru = StderrTruncated rw /\
  Duration ru = Duration rw /\
  (Err ru = None <-> Err rw = None) /\
  (forall s, errorsIs (Err ru) s = errorsIs (Err rw) s).
Proof.
  intros Hsize HK wu ww ru rw.
  destruct (of_exit_spec K HK) as (Hex & Hst).
  pose proof (int_of_uint32_small intSize K Hsize HK) as Hint.
  destruct start as [e|pid].
  - subst ru rw wu ww. cbn. repeat split; intros H; exact H.
  - pose proof (runCommand_started wu cfg pid eq_refl) as Hu.
    pose proof (Windows_runCommand_started intSize ww cfg pid eq_refl)
      as Hw.
    unfold captureBuffers in Hu, Hw. subst wu ww.
    cbn [w_stdout w_stderr w_wait w_ctx_first w_elapsed cmdWait
         Windows.cmdWait] in Hu, Hw.
    unfold Success, ExitCode_, Windows.Success, Windows.ExitCode_,
      Windows.ExitStatus in Hu, Hw.
    cbn [ps_status] in Hu, Hw. rewrite Hst in Hu. rewrite Hint in Hw.
    subst ru rw. rewrite Hu, Hw. cbn [fst].
    unfold resolveExitCode, ExitCode_, Windows.ExitCode_,
      Windows.ExitStatus; cbn [ps_status ExitCode Stdout Stderr Err
      Duration StdoutTruncated StderrTruncated].
    rewrite ?Hst, ?Hint.
    destruct (K =? 0); destruct cancelled; cbn;
      repeat split; try reflexivity; try (intros H; exact H);
      try (intros H; discriminate).
Qed.

Lemma platforms_agree_on_normal_exit_witness :
  (32 = 32 \/ 32 = 64) /\ 0 <= 3 <= 255 /\
  ExitCode (fst (runCommand (sampleWorld false (Reaped (WS.of_exit 3) None))
                   (defaultConfig sh)))
  = ExitCode (fst (Windows.runCommand 32
                     (sampleWorld false (Reaped 3 None))
                     (defaultConfig sh))).
Proof.
  assert (Hs : 32 = 32 \/ 32 = 64) by (left; reflexivity).
  assert (H : 0 <= 3 <= 255) by lia.
  split; [exact Hs|]. split; [exact H|].
  exact (proj1 (platforms_agree_on_normal_exit 32
    (inr 4242) false None [] [] 100 3 (defaultConfig sh) Hs H)).
Defined.

(** * Reaping and appending *)

(** X14: a process that was started is always waited for, exactly once
    and as the last thing the call does, whether or not it was killed
    first: the trace of the call ends with the receipt of the wait and
    holds no other. *)
Theorem started_process_is_reaped (w : World) (c : string)
    (opts : list Option) (pid : Z) :
  c <> EmptyString ->
  w_start w = inr pid ->
  exists pre : list Event,
    snd (Run w c opts) = pre ++ [EvWaitDone] /\ ~ In EvWaitDone pre.
Proof.
  intros Hc Hs.
  rewrite (Run_nonempty w c opts Hc); cbn [snd].
  rewrite (runCommand_events w _ pid Hs).
  assert (Hopt : ~ In EvWaitDone (map (fun _ : Option => EvOption) opts)).
  { intros Hin. apply in_map_iff in Hin.
    destruct Hin as (x & Hx & _). discriminate. }
  destruct (w_ctx_first w).
  - exists (map (fun _ : Option => EvOption) opts
            ++ [EvStart (applyOptions opts (defaultConfig c));
                EvKill (- pid) SIGKILL]).
    split; [rewrite <- app_assoc; reflexivity|].
    intros Hin. apply in_app_iff in Hin.
    destruct Hin as [Hin|[Hin|[Hin|[]]]];
      [contradiction | discriminate | discriminate].
  - exists (map (fun _ : Option => EvOption) opts
            ++ [EvStart (applyOptions opts (defaultConfig c))]).
    split; [rewrite <- app_assoc; reflexivity|].
    intros Hin. apply in_app_iff in Hin.
    destruct Hin as [Hin|[Hin|[]]]; [contradiction | discriminate].
Qed.

Lemma started_process_is_reaped_witness :
  let w := sampleWorld true (Reaped (WS.of_signal SIGKILL) None) in
  (sh <> EmptyString /\ w_start w = inr 4242) /\
  exists pre : list Event,
    snd (Run w sh [WithDir sh]) = pre ++ [EvWaitDone] /\
    ~ In EvWaitDone pre.
Proof.
  assert (H : sh <> EmptyString) by discriminate.
  split; [split; [exact H | reflexivity]|].
  exact (started_process_is_reaped
           (sampleWorld true (Reaped (WS.of_signal SIGKILL) None))
           sh [WithDir sh] 4242 H eq_refl).
Defined.

Lemma Write_appends (b : limitedBuffer) (p : list byte) :
  exists k : nat, buf (fst (Write b p)) = buf b ++ firstn k p.
Proof.
  unfold Write, bufWrite.
  destruct (limit b <=? 0).
  - exists (List.length p). rewrite firstn_all. reflexivity.
  - destruct (Int64.sub (limit b) (written b) <=? 0).
    + exists 0%nat. cbn. rewrite app_nil_r. reflexivity.
    + destruct (len p >? Int64.sub (limit b) (written b)).
      * exists (Z.to_nat (Int64.sub (limit b) (written b))). reflexivity.
      * exists (List.length p). rewrite firstn_all. reflexivity.
Qed.

(** X15: the buffer is append-only, in whatever state it is: a write
    adds a prefix of the chunk (possibly all of it, possibly nothing) to
    the end of what is stored, and after any sequence of writes what was
    stored before is still there, unchanged, at the front. *)
Theorem sink_append_only (b : limitedBuffer) (p : list byte)
    (chunks : list (list byte)) :
  (exists k : nat, buf (fst (Write b p)) = buf b ++ firstn k p) /\
  (exists s : list byte, buf (writeAll b chunks) = buf b ++ s).
Proof.
  split; [apply Write_appends|].
  revert b; induction chunks as [|q chunks IH]; intros b; cbn.
  - exists []. rewrite app_nil_r. reflexivity.
  - destruct (IH (fst (Write b q))) as (s & Hs).
    destruct (Write_appends b q) as (k & Hk).
    exists (firstn k q ++ s).
    unfold writeAll in Hs. rewrite Hs, Hk, app_assoc. reflexivity.
Qed.
